(** * ok-fp: Validation, Either, Task and TaskEither

    A shallow embedding of the TypeScript sources of ok-fp and the
    properties its specification states about them.

    Conventions of the embedding.

    - A JavaScript function is a function into [Js.Sync]: it reads and
      updates the world [W] (everything a callback can observe or change:
      counters, logs, mocks) and completes normally or by throwing a value
      of type [Exn].  "The callback was not invoked" is therefore visible:
      the world is the one it would have been without the call.
    - A promise is the asynchronous work still in flight ([Promise.t]): it is
      fulfilled, rejected, or has one more job for the event loop to run.
      The event loop's choice between two promises that both have a job
      ready is a [Promise.Choose] node, answered by a schedule (a list of
      booleans), so a statement that holds for every schedule holds whatever
      finishes first in real time.
    - A payload that is itself a promise (a thenable) is adopted by
      [Promise.resolve] and by the promise [then] returns, as in
      JavaScript.  Which values of a payload type are thenables is given by
      its [Promise.Thenable] instance; a type for which nothing is said has
      none ([Promise.plain]): numbers, strings, arrays, the objects of this
      library.
    - The world holds what synchronous code and the jobs of the awaited
      promise did.  Work that was started and
      that nobody awaits (a promise a side effect returned, the siblings of
      a rejected branch of [Promise.all]) is not followed: no statement
      below says what it does or when. *)

From Stdlib Require Import List Arith ZArith Lia Bool String Permutation.
Import ListNotations.

Declare Scope js_scope.
Delimit Scope js_scope with js.

(** ** Synchronous JavaScript code *)

Module Js.

Inductive Completion (Exn A : Type) : Type :=
| Normal (a : A)
| Thrown (x : Exn).

Arguments Normal {Exn A} a.
Arguments Thrown {Exn A} x.

Definition Sync (W Exn A : Type) : Type := W -> Completion Exn A * W.

Section Monad.
Context {W Exn : Type}.

Definition ret {A : Type} (a : A) : Sync W Exn A :=
  fun w => (Normal a, w).

Definition throw {A : Type} (x : Exn) : Sync W Exn A :=
  fun w => (Thrown x, w).

Definition bind {A B : Type} (c : Sync W Exn A) (k : A -> Sync W Exn B)
  : Sync W Exn B :=
  fun w =>
    match c w with
    | (Normal a, w1) => k a w1
    | (Thrown x, w1) => (Thrown x, w1)
    end.

(** [Array.prototype.map] with an effectful callback: the callback runs on
    every element, left to right; the first throw aborts the loop. *)
Fixpoint mapM {A B : Type} (f : A -> Sync W Exn B) (l : list A)
  : Sync W Exn (list B) :=
  match l with
  | [] => ret []
  | a :: rest =>
      bind (f a) (fun b => bind (mapM f rest) (fun bs => ret (b :: bs)))
  end.

(** [array.map(callback)] as the language defines it: the callback is
    called with the element, its index and the array. *)
Fixpoint mapMi_from {A B : Type} (f : A -> nat -> list A -> Sync W Exn B)
  (array : list A) (index : nat) (l : list A) : Sync W Exn (list B) :=
  match l with
  | [] => ret []
  | a :: rest =>
      bind (f a index array)
        (fun b => bind (mapMi_from f array (S index) rest)
                    (fun bs => ret (b :: bs)))
  end.

Definition mapMi {A B : Type} (f : A -> nat -> list A -> Sync W Exn B)
  (array : list A) : Sync W Exn (list B) :=
  mapMi_from f array 0 array.

End Monad.

End Js.

Notation "x <- c1 ;; c2" := (Js.bind c1 (fun x => c2))
  (at level 100, c1 at next level, right associativity) : js_scope.
Notation "' pat <- c1 ;; c2" := (Js.bind c1 (fun pat => c2))
  (at level 100, pat pattern, c1 at next level, right associativity) : js_scope.

Import Js.
Open Scope js_scope.

(** ** The host's promises

    The library asks three things of the host's asynchronous values:
    construction from a value at hand ([resolve]), sequential chaining
    ([then_]) and waiting for several values in flight ([all], [all2]).
    They are modelled after the promises of JavaScript. *)

Module Promise.

Section Host.
Context {W Exn : Type}.

(** The state of a promise: settled, or pending with the next job the event
    loop will run for it ([eff] is what the job does to the world, [next]
    the state of the promise after it), or pending on the event loop's
    choice between two ready jobs. *)
Inductive t (T : Type) : Type :=
| Fulfilled (v : T)
| Rejected (x : Exn)
| Pending (next : W -> t T) (eff : W -> W)
| Choose (k : bool -> t T).

Arguments Fulfilled {T} v.
Arguments Rejected {T} x.
Arguments Pending {T} next eff.
Arguments Choose {T} k.

(** The values of a payload type that are themselves promises (thenables),
    with the promise each one is. *)
Class Thenable (T : Type) : Type := asPromise : T -> option (t T).

(** A payload type none of whose values is a thenable. *)
Definition plain (T : Type) : Thenable T := fun _ => None.

(** [Promise.resolve(value)]: a thenable is adopted, any other value is
    what the promise is fulfilled with. *)
Definition resolve {T : Type} {TH : Thenable T} (value : T) : t T :=
  match asPromise value with
  | Some p => p
  | None => Fulfilled value
  end.

(** [p.then(cb)] for a callback that returns a promise: [cb] never runs
    inside the call of [then], it is a job of its own once [p] is fulfilled;
    a throw of [cb] rejects the result; a rejection of [p] skips [cb]. *)
Fixpoint then_ {A B : Type} (p : t A) (cb : A -> Sync W Exn (t B)) : t B :=
  match p with
  | Fulfilled v =>
      Pending
        (fun w => match fst (cb v w) with
                  | Normal q => q
                  | Thrown x => Rejected x
                  end)
        (fun w => snd (cb v w))
  | Rejected x => Rejected x
  | Pending next eff => Pending (fun w => then_ (next w) cb) eff
  | Choose k => Choose (fun c => then_ (k c) cb)
  end.

(** [p.then(cb)] for a callback that returns a value: the promise [then]
    returns is resolved with it, so a thenable that [cb] returns is
    adopted. *)
Definition then_value {A B : Type} {TH : Thenable B} (p : t A)
  (cb : A -> Sync W Exn B) : t B :=
  then_ p (fun v => b <- cb v ;; ret (resolve b)).

(** Relabelling of the value a promise is fulfilled with (no job, nothing
    observable): used to assemble the array of [Promise.all]. *)
Fixpoint pmap {A B : Type} (f : A -> B) (p : t A) : t B :=
  match p with
  | Fulfilled v => Fulfilled (f v)
  | Rejected x => Rejected x
  | Pending next eff => Pending (fun w => pmap f (next w)) eff
  | Choose k => Choose (fun c => pmap f (k c))
  end.

(** [Promise.all([p, q])]: both promises are in flight; when both have a job
    ready the event loop chooses which runs first; the result is fulfilled
    with both values once both are fulfilled and is rejected as soon as one
    of them is rejected (the work still pending in the other is not
    followed further). *)
Fixpoint all2 {A B : Type} (p : t A) (q : t B) {struct p} : t (A * B) :=
  match p with
  | Fulfilled a => pmap (fun b => (a, b)) q
  | Rejected x => Rejected x
  | Choose k => Choose (fun c => all2 (k c) q)
  | Pending np ep =>
      (fix wait (q : t B) : t (A * B) :=
         match q with
         | Fulfilled b => pmap (fun a => (a, b)) (Pending np ep)
         | Rejected x => Rejected x
         | Choose k => Choose (fun c => wait (k c))
         | Pending nq eq =>
             Choose (fun c =>
                       if c
                       then Pending (fun w => all2 (np w) (Pending nq eq)) ep
                       else Pending (fun w => wait (nq w)) eq)
         end) q
  end.

(** [Promise.all(promises)]: the array of values is in the order of the
    input array. *)
Fixpoint all {T : Type} (promises : list (t T)) : t (list T) :=
  match promises with
  | [] => Fulfilled []
  | p :: rest => pmap (fun vr => fst vr :: snd vr) (all2 p (all rest))
  end.

(** [await p] at top level: the event loop runs the jobs of [p] until it is
    settled, taking its choices from the schedule.  Only the jobs of [p]
    are run: what other promises in flight do in the meantime is not in the
    world this returns. *)
Fixpoint settle {T : Type} (p : t T) (env : W * list bool)
  : Completion Exn T * (W * list bool) :=
  match p with
  | Fulfilled v => (Normal v, env)
  | Rejected x => (Thrown x, env)
  | Pending next eff => settle (next (fst env)) (eff (fst env), snd env)
  | Choose k =>
      match snd env with
      | [] => settle (k true) env
      | c :: schedule => settle (k c) (fst env, schedule)
      end
  end.

(** [p] is fulfilled with [v] whatever the world does in the meantime and
    whatever the event loop chooses. *)
Inductive resolves_to {T : Type} : t T -> T -> Prop :=
| resolves_now : forall v, resolves_to (Fulfilled v) v
| resolves_job : forall next eff v,
    (forall w, resolves_to (next w) v) -> resolves_to (Pending next eff) v
| resolves_choice : forall k v,
    (forall c, resolves_to (k c) v) -> resolves_to (Choose k) v.

(** [p] after [n] more turns of the event loop that leave the world alone:
    a timer. *)
Fixpoint delay {T : Type} (n : nat) (p : t T) : t T :=
  match n with
  | O => p
  | S m => Pending (fun _ => delay m p) (fun w => w)
  end.

End Host.

Arguments t : clear implicits.
Arguments Fulfilled {W Exn T} v.
Arguments Rejected {W Exn T} x.
Arguments Pending {W Exn T} next eff.
Arguments Choose {W Exn T} k.
Arguments Thenable : clear implicits.
Arguments plain {W Exn} T.

(** Unless an instance says otherwise, a payload type has no thenables. *)
#[global] Existing Instance plain | 100.

End Promise.

(** ** Either *)

Module Either.

Section Either.
Context {W Exn : Type}.

(** Modelled from the spec: the sources of [Either] ([either/either.ts],
    [either/constructors.ts]) are missing.  The spec gives it as the tagged
    union of [left] (one error) and [right] (a value), whose [map] and
    [flatMap] short-circuit on [left] without invoking the mapper, whose [ap]
    on two lefts returns only the receiver's left, and whose [match],
    [getOrElse] and [tap] behave like those of [Validation]. *)
Inductive t (E T : Type) : Type :=
| Left (leftVal : E)
| Right (rightVal : T).

Arguments Left {E T} leftVal.
Arguments Right {E T} rightVal.

(** Modelled from the spec: the constructor of the error branch. *)
Definition left {E T : Type} (error : E) : t E T := Left error.

(** Modelled from the spec: the constructor of the success branch. *)
Definition right {T E : Type} (value : T) : t E T := Right value.

(** Modelled from the spec: exhaustive case analysis, as
    [Validation.match_]. *)
Definition match_ {E T U : Type} (either : t E T)
  (onLeft : E -> U) (onRight : T -> U) : U :=
  match either with
  | Left leftVal => onLeft leftVal
  | Right rightVal => onRight rightVal
  end.

(** Modelled from the spec: [map] short-circuits on the left branch. *)
Definition map {E T U : Type} (either : t E T) (mapper : T -> Sync W Exn U)
  : Sync W Exn (t E U) :=
  match_ either
    (fun leftVal => ret (left leftVal))
    (fun rightVal => u <- mapper rightVal ;; ret (right u)).

(** Modelled from the spec: [flatMap] short-circuits on the left branch. *)
Definition flatMap {E T U : Type} (either : t E T)
  (mapper : T -> Sync W Exn (t E U)) : Sync W Exn (t E U) :=
  match_ either
    (fun leftVal => ret (left leftVal))
    (fun rightVal => mapper rightVal).

(** Modelled from the spec: [ap] is first-error-wins; the receiver is
    inspected first, so two lefts give the receiver's. *)
Definition ap {E A U : Type} (this : t E (A -> Sync W Exn U)) (arg : t E A)
  : Sync W Exn (t E U) :=
  flatMap this (fun fn => map arg fn).

(** Modelled from the spec: [getOrElse], as [Validation.getOrElse]. *)
Definition getOrElse {E T : Type} (either : t E T)
  (fallback : E -> Sync W Exn T) : Sync W Exn T :=
  match_ either (fun leftVal => fallback leftVal) (fun rightVal => ret rightVal).

(** Modelled from the spec: [tap], as [Validation.tap]. *)
Definition tap {E T R : Type} (either : t E T)
  (sideEffect : T -> Sync W Exn R) : Sync W Exn (t E T) :=
  _ <- match_ either
         (fun _ => ret tt)
         (fun rightVal => _ <- sideEffect rightVal ;; ret tt) ;;
  ret either.

(** Modelled from the spec: the result object of [toResult], whose source is
    missing; [TaskEither.all] reads its fields [ok], [value] and [error]. *)
Inductive Result (E T : Type) : Type :=
| Ok (value : T)
| Err (error : E).

Arguments Ok {E T} value.
Arguments Err {E T} error.

Definition ok {E T : Type} (result : Result E T) : bool :=
  match result with
  | Ok _ => true
  | Err _ => false
  end.

(** Modelled from the spec: [toResult] turns [right] into the [ok] result
    and [left] into the failed one. *)
Definition toResult {E T : Type} (either : t E T) : Result E T :=
  match_ either (fun leftVal => Err leftVal) (fun rightVal => Ok rightVal).

End Either.

Arguments t : clear implicits.
Arguments Left {E T} leftVal.
Arguments Right {E T} rightVal.
Arguments Ok {E T} value.
Arguments Err {E T} error.

End Either.

(** ** Validation *)

Module Validation.

Section Validation.
Context {W Exn : Type}.

(** [ValidationV<E, T> = Valid<T> | Invalid<E>] *)
Inductive ValidationV (E T : Type) : Type :=
| Valid (valid : T)
| Invalid (invalid : list E).

Arguments Valid {E T} valid.
Arguments Invalid {E T} invalid.

(** The object [createValidation] returns has no state but the wrapped
    value: its methods are the functions below. *)
Definition Validation (E T : Type) : Type := ValidationV E T.

Definition createValidation {E T : Type} (value : ValidationV E T)
  : Validation E T := value.

Definition isValid {E T : Type} (value : ValidationV E T) : bool :=
  match value with
  | Valid _ => true
  | Invalid _ => false
  end.

Definition match_ {E T U : Type} (validation : Validation E T)
  (onInvalid : list E -> U) (onValid : T -> U) : U :=
  match validation with
  | Valid valid => onValid valid
  | Invalid invalid => onInvalid invalid
  end.

(** On the invalid branch [map] returns the receiver itself ([forceCast]),
    that is, the same errors at the new value type. *)
Definition map {E T U : Type} (validation : Validation E T)
  (mapper : T -> Sync W Exn U) : Sync W Exn (Validation E U) :=
  match_ validation
    (fun errors => ret (createValidation (Invalid errors)))
    (fun v => u <- mapper v ;; ret (createValidation (Valid u))).

Definition ap {E A U : Type} (this : Validation E (A -> Sync W Exn U))
  (arg : Validation E A) : Sync W Exn (Validation E U) :=
  match_ this
    (fun errors1 =>
       match_ arg
         (fun errors2 => ret (createValidation (Invalid (errors1 ++ errors2))))
         (fun _ => ret (createValidation (Invalid errors1))))
    (fun fn =>
       match_ arg
         (fun errors2 => ret (createValidation (Invalid errors2)))
         (fun v => u <- fn v ;; ret (createValidation (Valid u)))).

Definition getOrElse {E T : Type} (validation : Validation E T)
  (fallback : list E -> Sync W Exn T) : Sync W Exn T :=
  match_ validation (fun errors => fallback errors) (fun v => ret v).

Definition tap {E T R : Type} (validation : Validation E T)
  (sideEffect : T -> Sync W Exn R) : Sync W Exn (Validation E T) :=
  _ <- match_ validation
         (fun _ => ret tt)
         (fun v => _ <- sideEffect v ;; ret tt) ;;
  ret validation.

(** *** constructors *)

Definition valid {T E : Type} (value : T) : Validation E T :=
  createValidation (Valid value).

Definition invalid {E T : Type} (error : E) : Validation E T :=
  createValidation (Invalid [error]).

Definition fromEither {E T : Type} (either : Either.t E T) : Validation E T :=
  Either.match_ either
    (fun error => invalid error)
    (fun value => valid value).

(** *** helpers *)

Definition map2 {E A B C : Type} (valA : Validation E A) (valB : Validation E B)
  (mapper : A -> B -> Sync W Exn C) : Sync W Exn (Validation E C) :=
  fn <- map valA (fun a => ret (fun b => mapper a b)) ;;
  ap fn valB.

Definition map3 {E A B C D : Type} (valA : Validation E A)
  (valB : Validation E B) (valC : Validation E C)
  (mapper : A -> B -> C -> Sync W Exn D) : Sync W Exn (Validation E D) :=
  fn <- map valA (fun a => ret (fun b => ret (fun c => mapper a b c))) ;;
  fn2 <- ap fn valB ;;
  ap fn2 valC.

(** The language puts no bound on the number of arguments of a call; an
    engine does, and throws a [RangeError] beyond it.  [spreadLimit] is the
    bound of the engine and the error it throws, if it has one. *)
Class Engine : Type := spreadLimit : option (nat * Exn).

(** The language alone: no bound. *)
Definition unbounded : Engine := None.

(** [errors.push(...errs)]: every element of [errs] is an argument of the
    one call of [push]; when they are too many for the engine the call
    throws and nothing is pushed. *)
Definition pushSpread {E : Type} {engine : Engine} (errors errs : list E)
  : Sync W Exn (list E) :=
  match spreadLimit with
  | Some (limit, rangeError) =>
      if List.length errs <=? limit
      then ret (errors ++ errs)
      else throw rangeError
  | None => ret (errors ++ errs)
  end.

(** The [for ... of] loop of [traverse] over the two local arrays [errors]
    and [values]. *)
Fixpoint traverse_loop {E A B : Type} {engine : Engine} (items : list A)
  (f : A -> Sync W Exn (Validation E B)) (errors : list E) (values : list B)
  : Sync W Exn (list E * list B) :=
  match items with
  | [] => ret (errors, values)
  | a :: rest =>
      r <- f a ;;
      match_ r
        (fun errs =>
           errors1 <- pushSpread errors errs ;;
           traverse_loop rest f errors1 values)
        (fun v => traverse_loop rest f errors (values ++ [v]))
  end.

Definition traverse {E A B : Type} {engine : Engine} (items : list A)
  (f : A -> Sync W Exn (Validation E B)) : Sync W Exn (Validation E (list B)) :=
  ev <- traverse_loop items f [] [] ;;
  ret (if 0 <? List.length (fst ev)
       then createValidation (Invalid (fst ev))
       else createValidation (Valid (snd ev))).

Definition sequence {E T : Type} {engine : Engine}
  (validations : list (Validation E T))
  : Sync W Exn (Validation E (list T)) :=
  traverse validations (fun v => ret v).

(** The errors of the validation are few enough for one call of [push] in
    the engine. *)
Definition spreadable {E T : Type} {engine : Engine}
  (validation : Validation E T) : Prop :=
  match spreadLimit, validation with
  | Some (limit, _), Invalid errors => List.length errors <= limit
  | _, _ => True
  end.

(** The invariant of the data model: an invalid carries at least one
    error. *)
Definition wellFormed {E T : Type} (validation : Validation E T) : Prop :=
  match validation with
  | Valid _ => True
  | Invalid errors => errors <> []
  end.

End Validation.

Arguments Valid {E T} valid.
Arguments Invalid {E T} invalid.
Arguments Engine : clear implicits.
Arguments unbounded {Exn}.

(** Unless an engine is given, the one of the language alone. *)
#[global] Existing Instance unbounded | 100.

End Validation.

(** ** Task *)

Module Task.

Section Task.
Context {W Exn : Type}.

(** [TaskValue<T> = () => Promise<T>]: calling the thunk is synchronous code
    that hands back the promise of the work it started. *)
Definition TaskValue (T : Type) : Type := Sync W Exn (Promise.t W Exn T).

(** The object [createTask] returns has no state but the thunk it closes
    over; [run] is [() => thunk()]. *)
Record Task (T : Type) : Type := createTask { run : TaskValue T }.

Arguments createTask {T} run.
Arguments run {T} t.

Definition map {T U : Type} {TH : Promise.Thenable W Exn U} (t : Task T)
  (mapper : T -> Sync W Exn U) : Task U :=
  createTask (p <- run t ;; ret (Promise.then_value (TH := TH) p mapper)).

Definition ap {A U : Type} {TH : Promise.Thenable W Exn U}
  (this : Task (A -> Sync W Exn U)) (arg : Task A) : Task U :=
  createTask
    (pf <- run this ;;
     pa <- run arg ;;
     ret (Promise.then_value (TH := TH) (Promise.all2 pf pa)
            (fun fa => fst fa (snd fa)))).

(** Neither the function [map] resolves with here nor the pair is a
    thenable. *)
Definition zip {T A : Type} (t : Task T) (taskA : Task A) : Task (T * A) :=
  ap (TH := Promise.plain _)
    (map (TH := Promise.plain _) t (fun value => ret (fun a => ret (value, a))))
    taskA.

Definition flatMap {T U : Type} (t : Task T) (mapper : T -> Sync W Exn (Task U))
  : Task U :=
  createTask
    (p <- run t ;;
     ret (Promise.then_ p (fun value => t2 <- mapper value ;; run t2))).

Definition flatten {U : Type} (this : Task (Task U)) : Task U :=
  flatMap this (fun value => ret value).

Definition tap {T R : Type} {TH : Promise.Thenable W Exn T} (t : Task T)
  (sideEffect : T -> Sync W Exn R) : Task T :=
  createTask
    (p <- run t ;;
     ret (Promise.then_value (TH := TH) p
            (fun value => _ <- sideEffect value ;; ret value))).

(** *** constructors *)

Definition task {T : Type} {TH : Promise.Thenable W Exn T} (value : T)
  : Task T :=
  createTask (ret (Promise.resolve (TH := TH) value)).

Definition fromPromise {T : Type} (thunk : TaskValue T) : Task T :=
  createTask thunk.

(** *** helpers *)

Definition all {T : Type} (tasks : list (Task T)) : Task (list T) :=
  createTask (ps <- mapM run tasks ;; ret (Promise.all ps)).

(** [all(items.map(mapper))]: [items.map(mapper)] runs when [traverse] is
    called, not when the resulting task is run, and hands the mapper the
    item, its index and the array. *)
Definition traverseWith {T U : Type} (items : list T)
  (mapper : T -> nat -> list T -> Sync W Exn (Task U))
  : Sync W Exn (Task (list U)) :=
  tasks <- mapMi mapper items ;; ret (all tasks).

(** [traverse] with a mapper that reads its first argument only, as its
    type [(item: T) => Task<U>] declares. *)
Definition traverse {T U : Type} (items : list T)
  (mapper : T -> Sync W Exn (Task U)) : Sync W Exn (Task (list U)) :=
  traverseWith items (fun item _ _ => mapper item).

Definition sequence {T : Type} (tasks : list (Task T)) : Task (list T) :=
  all tasks.

(** [await t.run()]: the call of [run], then the event loop until the
    promise is settled; a throw of [run] itself and a rejection both surface
    as the exception of the [await] expression. *)
Definition exec {T : Type} (t : Task T) (env : W * list bool)
  : Completion Exn T * (W * list bool) :=
  match run t (fst env) with
  | (Normal p, w1) => Promise.settle p (w1, snd env)
  | (Thrown x, w1) => (Thrown x, (w1, snd env))
  end.

(** [await (e).run()] where evaluating the task expression [e] is itself
    code: [f(a).run()]. *)
Definition execOf {T : Type} (e : Sync W Exn (Task T)) (env : W * list bool)
  : Completion Exn T * (W * list bool) :=
  match e (fst env) with
  | (Normal t, w1) => exec t (w1, snd env)
  | (Thrown x, w1) => (Thrown x, (w1, snd env))
  end.

(** Every run of the task returns a promise that is fulfilled with [v]. *)
Definition resolves {T : Type} (t : Task T) (v : T) : Prop :=
  forall w, exists p w1,
    run t w = (Normal p, w1) /\ Promise.resolves_to p v.

End Task.

Arguments Task : clear implicits.
Arguments TaskValue : clear implicits.
Arguments createTask {W Exn T} run.
Arguments run {W Exn T} t.

End Task.

(** ** TaskEither *)

Module TaskEither.

Section TaskEither.
Context {W Exn : Type}.

(** [TaskEitherValue<E, T> = () => Promise<Either<E, T>>].  An [Either] is
    an object of this library and no thenable, whatever it carries: the
    promises below are resolved with [Promise.plain]. *)
Definition TaskEitherValue (E T : Type) : Type :=
  Sync W Exn (Promise.t W Exn (Either.t E T)).

Record TaskEither (E T : Type) : Type :=
  createTaskEither { run : TaskEitherValue E T }.

Arguments createTaskEither {E T} run.
Arguments run {E T} t.

Definition flatMap {E T U : Type} (te : TaskEither E T)
  (mapper : T -> Sync W Exn (TaskEither E U)) : TaskEither E U :=
  createTaskEither
    (p <- run te ;;
     ret (Promise.then_ p
            (fun either =>
               Either.match_ either
                 (fun leftVal =>
                    ret (Promise.resolve (TH := Promise.plain _)
                           (Either.left leftVal)))
                 (fun rightVal => te2 <- mapper rightVal ;; run te2)))).

(** The inner thunk calls [mapper] when the inner TaskEither is run. *)
Definition map {E T U : Type} (te : TaskEither E T) (mapper : T -> Sync W Exn U)
  : TaskEither E U :=
  flatMap te
    (fun rightVal =>
       ret (createTaskEither
              (u <- mapper rightVal ;;
               ret (Promise.resolve (TH := Promise.plain _)
                      (Either.right u))))).

Definition mapLeft {E F T : Type} (te : TaskEither E T)
  (mapper : E -> Sync W Exn F) : TaskEither F T :=
  createTaskEither
    (p <- run te ;;
     ret (Promise.then_value (TH := Promise.plain _) p
            (fun either =>
               Either.match_ either
                 (fun leftVal => f <- mapper leftVal ;; ret (Either.left f))
                 (fun rightVal => ret (Either.right rightVal))))).

Definition ap {E A U : Type} (this : TaskEither E (A -> Sync W Exn U))
  (arg : TaskEither E A) : TaskEither E U :=
  createTaskEither
    (pf <- run this ;;
     pa <- run arg ;;
     ret (Promise.then_value (TH := Promise.plain _) (Promise.all2 pf pa)
            (fun fa => Either.ap (fst fa) (snd fa)))).

Definition zip {E T A : Type} (te : TaskEither E T) (other : TaskEither E A)
  : TaskEither E (T * A) :=
  ap (map te (fun value => ret (fun a => ret (value, a)))) other.

Definition flatten {E U : Type} (this : TaskEither E (TaskEither E U))
  : TaskEither E U :=
  flatMap this (fun value => ret value).

Definition tap {E T R : Type} (te : TaskEither E T)
  (sideEffect : T -> Sync W Exn R) : TaskEither E T :=
  createTaskEither
    (p <- run te ;;
     ret (Promise.then_value (TH := Promise.plain _) p
            (fun either => _ <- Either.tap either sideEffect ;; ret either))).

Definition tapLeft {E T R : Type} (te : TaskEither E T)
  (sideEffect : E -> Sync W Exn R) : TaskEither E T :=
  createTaskEither
    (p <- run te ;;
     ret (Promise.then_value (TH := Promise.plain _) p
            (fun either =>
               _ <- Either.match_ either
                      (fun leftVal => _ <- sideEffect leftVal ;; ret tt)
                      (fun _ => ret tt) ;;
               ret either))).

Definition match_ {E T U : Type} {TH : Promise.Thenable W Exn U}
  (te : TaskEither E T)
  (onLeft : E -> Sync W Exn U) (onRight : T -> Sync W Exn U)
  : Task.Task W Exn U :=
  Task.createTask
    (p <- run te ;;
     ret (Promise.then_value (TH := TH) p
            (fun either => Either.match_ either onLeft onRight))).

Definition getOrElse {E T : Type} {TH : Promise.Thenable W Exn T}
  (te : TaskEither E T)
  (fallback : E -> Sync W Exn T) : Task.Task W Exn T :=
  Task.createTask
    (p <- run te ;;
     ret (Promise.then_value (TH := TH) p
            (fun either => Either.getOrElse either fallback))).

Definition orElse {E T : Type} (te : TaskEither E T)
  (fallback : E -> Sync W Exn (TaskEither E T)) : TaskEither E T :=
  createTaskEither
    (p <- run te ;;
     ret (Promise.then_ p
            (fun either =>
               Either.match_ either
                 (fun leftVal => te2 <- fallback leftVal ;; run te2)
                 (fun _ =>
                    ret (Promise.resolve (TH := Promise.plain _) either))))).

(** *** constructors *)

(** Modelled from the spec: the constructors of [TaskEither]
    ([taskEither/constructors.ts]) are missing; [taskEither(value)] resolves
    to [right(value)], as the thunk [map] builds in place does. *)
Definition taskEither {T E : Type} (value : T) : TaskEither E T :=
  createTaskEither
    (ret (Promise.resolve (TH := Promise.plain _) (Either.right value))).

(** Modelled from the spec: [taskLeft(error)] resolves to [left(error)]. *)
Definition taskLeft {E T : Type} (error : E) : TaskEither E T :=
  createTaskEither
    (ret (Promise.resolve (TH := Promise.plain _) (Either.left error))).

(** *** helpers *)

(** The [for ... of] loop of [all] over the resolved outcomes, with the
    local array [out]. *)
Fixpoint all_loop {E T : Type} (eithers : list (Either.t E T)) (out : list T)
  : Either.t E (list T) :=
  match eithers with
  | [] => Either.right out
  | either :: rest =>
      match Either.toResult either with
      | Either.Err error => Either.left error
      | Either.Ok value => all_loop rest (out ++ [value])
      end
  end.

Definition all {E T : Type} (taskEithers : list (TaskEither E T))
  : TaskEither E (list T) :=
  createTaskEither
    (ps <- mapM run taskEithers ;;
     ret (Promise.then_value (TH := Promise.plain _) (Promise.all ps)
            (fun eithers => ret (all_loop eithers [])))).

(** [await te.run()] *)
Definition exec {E T : Type} (te : TaskEither E T) (env : W * list bool)
  : Completion Exn (Either.t E T) * (W * list bool) :=
  match run te (fst env) with
  | (Normal p, w1) => Promise.settle p (w1, snd env)
  | (Thrown x, w1) => (Thrown x, (w1, snd env))
  end.

(** [await (e).run()] where evaluating [e] is itself code. *)
Definition execOf {E T : Type} (e : Sync W Exn (TaskEither E T))
  (env : W * list bool) : Completion Exn (Either.t E T) * (W * list bool) :=
  match e (fst env) with
  | (Normal te, w1) => exec te (w1, snd env)
  | (Thrown x, w1) => (Thrown x, (w1, snd env))
  end.

(** Every run of the TaskEither returns a promise that is fulfilled with
    [either]. *)
Definition resolves {E T : Type} (te : TaskEither E T) (either : Either.t E T)
  : Prop :=
  forall w, exists p w1,
    run te w = (Normal p, w1) /\ Promise.resolves_to p either.

End TaskEither.

Arguments TaskEither : clear implicits.
Arguments TaskEitherValue : clear implicits.
Arguments createTaskEither {W Exn E T} run.
Arguments run {W Exn E T} t.

End TaskEither.

(** ** What the specification says, for comparison with the code *)

Module Expected.

Section Expected.
Context {W Exn : Type}.

(** A callback that always returns normally. *)
Definition returning {A R : Type} (g : A -> W -> R * W) : A -> Sync W Exn R :=
  fun a w => (Normal (fst (g a w)), snd (g a w)).

(** The callback applied to every item, once each, in the order of the
    items, each call in the world the previous call left. *)
Fixpoint visit {A R : Type} (g : A -> W -> R * W) (items : list A) (w : W)
  : list R * W :=
  match items with
  | [] => ([], w)
  | a :: rest =>
      let r := g a w in
      let rs := visit g rest (snd r) in
      (fst r :: fst rs, snd rs)
  end.

(** The errors of the invalid ones, concatenated in order. *)
Fixpoint errorsOf {E T : Type} (vs : list (Validation.Validation E T))
  : list E :=
  match vs with
  | [] => []
  | Validation.Valid _ :: rest => errorsOf rest
  | Validation.Invalid errors :: rest => errors ++ errorsOf rest
  end.

(** The values of the valid ones, in order. *)
Fixpoint valuesOf {E T : Type} (vs : list (Validation.Validation E T))
  : list T :=
  match vs with
  | [] => []
  | Validation.Valid v :: rest => v :: valuesOf rest
  | Validation.Invalid _ :: rest => valuesOf rest
  end.

(** The pair [zip] resolves to from the outcomes of its two operands: the
    first error in operand order, else both values. *)
Definition zipped {E T A : Type} (e1 : Either.t E T) (e2 : Either.t E A)
  : Either.t E (T * A) :=
  match e1, e2 with
  | Either.Left e, _ => Either.Left e
  | Either.Right _, Either.Left e => Either.Left e
  | Either.Right v, Either.Right a => Either.Right (v, a)
  end.

(** The result the specification gives to [traverse] from the validations
    the items produced: valid with all the values exactly when every one is
    valid, otherwise invalid with all the errors. *)
Definition traversed {E T : Type} (vs : list (Validation.Validation E T))
  : Validation.Validation E (list T) :=
  if forallb Validation.isValid vs
  then Validation.Valid (valuesOf vs)
  else Validation.Invalid (errorsOf vs).

End Expected.

End Expected.

(** ** Mocks: counting the calls of a callable *)

Module Mock.

Section Mock.
Context {W Exn : Type}.

(** A promise of the callable, in the world of the test: the world of the
    callable and the number of calls the mock has recorded, which the jobs
    of the promise leave alone. *)
Fixpoint inTest {T : Type} (p : Promise.t W Exn T) : Promise.t (W * nat) Exn T :=
  match p with
  | Promise.Fulfilled v => Promise.Fulfilled v
  | Promise.Rejected x => Promise.Rejected x
  | Promise.Pending next eff =>
      Promise.Pending (fun wc => inTest (next (fst wc)))
                      (fun wc => (eff (fst wc), snd wc))
  | Promise.Choose k => Promise.Choose (fun c => inTest (k c))
  end.

(** [vi.fn(thunk)]: every call is recorded and passed on to [thunk]. *)
Definition fn {T : Type} (thunk : Sync W Exn (Promise.t W Exn T))
  : Sync (W * nat) Exn (Promise.t (W * nat) Exn T) :=
  fun wc =>
    match thunk (fst wc) with
    | (Normal p, w1) => (Normal (inTest p), (w1, S (snd wc)))
    | (Thrown x, w1) => (Thrown x, (w1, S (snd wc)))
    end.

(** The number of calls recorded so far. *)
Definition calls (wc : W * nat) : nat := snd wc.

End Mock.

(** [n] evaluations of the same expression, one after the other, each in the
    state the previous one left; the outcomes are kept in order. *)
Fixpoint times {S R : Type} (n : nat) (c : S -> R * S) (s : S) : list R * S :=
  match n with
  | O => ([], s)
  | Datatypes.S m =>
      let r := c s in
      let rs := times m c (snd r) in
      (fst r :: fst rs, snd rs)
  end.

(** A callable that resolves with the number of times it has been called
    before. *)
Definition ticket {Exn : Type} : Sync nat Exn (Promise.t nat Exn nat) :=
  fun count => (Normal (Promise.resolve count), S count).

End Mock.

(** ** Traces: what was invoked and what has resolved, in order *)

Module Trace.

Inductive Event : Type :=
| Invoked (id : nat)
| Resolved (id : nat).

Definition Log : Type := list Event.

Section Trace.
Context {Exn : Type}.

(** [p] is fulfilled with [v] on every schedule, and its jobs together add
    the events [l] to the log, in some order, and nothing else. *)
Inductive yields {T : Type} : Promise.t Log Exn T -> T -> list Event -> Prop :=
| yields_now : forall v, yields (Promise.Fulfilled v) v []
| yields_job : forall next eff v l1 l2,
    (forall log, eff log = log ++ l1) ->
    (forall log, yields (next log) v l2) ->
    yields (Promise.Pending next eff) v (l1 ++ l2)
| yields_choice : forall k v l,
    (forall c, yields (k c) v l) -> yields (Promise.Choose k) v l
| yields_perm : forall p v l l',
    yields p v l -> Permutation l l' -> yields p v l'.

(** A task whose callable records [Invoked id] when it is called and whose
    promise records [Resolved id], and nothing else, by the time it is
    fulfilled with [v]. *)
Definition traced {T : Type} (t : Task.Task Log Exn T) (spec : nat * T) : Prop :=
  forall log, exists p,
    Task.run t log = (Normal p, log ++ [Invoked (fst spec)])
    /\ yields p (snd spec) [Resolved (fst spec)].

(** The same for a TaskEither. *)
Definition tracedE {E T : Type} (te : TaskEither.TaskEither Log Exn E T)
  (spec : nat * Either.t E T) : Prop :=
  forall log, exists p,
    TaskEither.run te log = (Normal p, log ++ [Invoked (fst spec)])
    /\ yields p (snd spec) [Resolved (fst spec)].

(** The outcome of an awaited run that began in [log]: it resolved with
    [v]; the callables [ids] were all invoked, in this order, before any of
    them resolved; each has resolved once, in some order. *)
Definition startedTogether {R : Type}
  (outcome : Completion Exn R * (Log * list bool))
  (log : Log) (ids : list nat) (v : R) : Prop :=
  exists resolutions schedule,
    outcome
    = (Normal v, (log ++ List.map Invoked ids ++ resolutions, schedule))
    /\ Permutation (List.map Resolved ids) resolutions.

(** [fromPromise(() => { log.push(invoked); return sleep(d).then(() =>
    { log.push(resolved); return v; }); })] *)
Definition probe {T : Type} (d : nat) (spec : nat * T) : Task.Task Log Exn T :=
  Task.fromPromise
    (fun log =>
       (Normal
          (Promise.delay d
             (Promise.Pending (fun _ => Promise.Fulfilled (snd spec))
                              (fun log1 => log1 ++ [Resolved (fst spec)]))),
        log ++ [Invoked (fst spec)])).

Definition probeE {E T : Type} (d : nat) (spec : nat * Either.t E T)
  : TaskEither.TaskEither Log Exn E T :=
  TaskEither.createTaskEither
    (fun log =>
       (Normal
          (Promise.delay d
             (Promise.Pending (fun _ => Promise.Fulfilled (snd spec))
                              (fun log1 => log1 ++ [Resolved (fst spec)]))),
        log ++ [Invoked (fst spec)])).

End Trace.

End Trace.

(** ** Callbacks and tasks used as concrete instances *)

Module Sample.

(** [x => x > 0 ? valid(x) : invalid(x)], counting its calls in the world. *)
Definition checkPositive (x : Z) (calls : nat)
  : Validation.Validation Z Z * nat :=
  (if (0 <? x)%Z then Validation.valid x else Validation.invalid x, S calls).

(** A callback that records its argument in the world and returns. *)
Definition recording (v : nat) : Sync (list nat) string nat :=
  fun log => (Normal (v + 1), log ++ [v]).

(** A callback that records its argument in the world and throws. *)
Definition failing (v : nat) : Sync (list nat) string nat :=
  fun log => (Thrown "boom"%string, log ++ [v]).

(** A mapper that records its argument and returns a TaskEither whose thunk
    records too. *)
Definition recordingStep (v : nat)
  : Sync (list nat) string (TaskEither.TaskEither (list nat) string string nat) :=
  fun log =>
    (Normal
       (TaskEither.createTaskEither
          (fun log1 =>
             (Normal (Promise.resolve (Either.right (2 * v))), log1 ++ [v + 100]))),
     log ++ [v]).

(** A TaskEither whose run starts work that resolves to [either] after
    [d] jobs of the event loop. *)
Definition after {E T : Type} (d : nat) (either : Either.t E T)
  : TaskEither.TaskEither unit string E T :=
  TaskEither.createTaskEither
    (ret (Promise.delay d (Promise.resolve either))).

End Sample.

(** ** Readings of single outcomes *)

Module Outcome.

Section Outcome.
Context {W Exn : Type}.

(** The errors a validation carries: none when it is valid. *)
Definition errorsIn {E T : Type} (v : Validation.Validation E T) : list E :=
  match v with
  | Validation.Valid _ => []
  | Validation.Invalid errors => errors
  end.

(** A validation of a function that has no effect, as a validation of a
    JavaScript function. *)
Definition pureFn {E A B : Type} (v : Validation.Validation E (A -> B))
  : Validation.Validation E (A -> Sync W Exn B) :=
  match v with
  | Validation.Valid f => Validation.Valid (fun a => ret (f a))
  | Validation.Invalid errors => Validation.Invalid errors
  end.

(** [traverse] written with the applicative alone: the items are combined
    from the right with [map2]. *)
Fixpoint applicativeTraverse {E A B : Type} (items : list A)
  (h : A -> Validation.Validation E B)
  : Sync W Exn (Validation.Validation E (list B)) :=
  match items with
  | [] => ret (Validation.valid [])
  | a :: rest =>
      acc <- applicativeTraverse rest h ;;
      Validation.map2 (h a) acc (fun b bs => ret (b :: bs))
  end.

(** The outcome of [map] on an outcome, for a function without effect. *)
Definition mapped {E T U : Type} (f : T -> U) (either : Either.t E T)
  : Either.t E U :=
  match either with
  | Either.Left e => Either.Left e
  | Either.Right v => Either.Right (f v)
  end.

(** The outcome of [ap] on two outcomes, for a function without effect. *)
Definition applied {E A U : Type} (ef : Either.t E (A -> U))
  (ea : Either.t E A) : Either.t E U :=
  match ef, ea with
  | Either.Left e, _ => Either.Left e
  | Either.Right _, Either.Left e => Either.Left e
  | Either.Right f, Either.Right a => Either.Right (f a)
  end.

End Outcome.

End Outcome.

(** ** More callbacks used as concrete instances *)

Module Sample2.


(** A task whose callable records its call and throws. *)
Definition broken (id : nat) : Task.Task (list nat) string nat :=
  Task.fromPromise (fun log => (Thrown "broken"%string, log ++ [id])).

(** A task whose callable records its call and resolves with [v]. *)
Definition noted (id v : nat) : Task.Task (list nat) string nat :=
  Task.fromPromise (fun log => (Normal (Promise.resolve v), log ++ [id])).

(** The same two for TaskEither. *)
Definition brokenE (id : nat)
  : TaskEither.TaskEither (list nat) string string nat :=
  TaskEither.createTaskEither
    (fun log => (Thrown "broken"%string, log ++ [id])).

Definition notedE (id : nat) (either : Either.t string nat)
  : TaskEither.TaskEither (list nat) string string nat :=
  TaskEither.createTaskEither
    (fun log => (Normal (Promise.resolve either), log ++ [id])).

(** An engine whose calls take one spread argument at most. *)
Definition tightEngine : Validation.Engine string :=
  Some (1, "RangeError"%string).

End Sample2.

(** ** A payload type with thenables *)

Module Dynamic.

#[local] Unset Elimination Schemes.

(** A value that is a number or a promise of such a value. *)
Inductive Val (W Exn : Type) : Type :=
| Num (n : nat)
| Prom (p : Promise.t W Exn (Val W Exn)).

#[local] Set Elimination Schemes.

Arguments Num {W Exn} n.
Arguments Prom {W Exn} p.

(** The promises among the values are the thenables. *)
#[global] Instance thenable {W Exn : Type} : Promise.Thenable W Exn (Val W Exn) :=
  fun v =>
    match v with
    | Prom p => Some p
    | Num _ => None
    end.

(** [v => task(v instanceof Promise ? 1 : 0)] *)
Definition tellPromise {W Exn : Type} (v : Val W Exn)
  : Sync W Exn (Task.Task W Exn (Val W Exn)) :=
  ret (Task.task (match v with
                  | Prom _ => Num 1
                  | Num _ => Num 0
                  end)).

(** [v => (v instanceof Promise ? 1 : 0)] *)
Definition tell {W Exn : Type} (v : Val W Exn) : Sync W Exn (Val W Exn) :=
  ret (match v with
       | Prom _ => Num 1
       | Num _ => Num 0
       end).

(** A promise already fulfilled with 5, as a value. *)
Definition five {W Exn : Type} : Val W Exn :=
  Prom (Promise.Fulfilled (Num 5)).

End Dynamic.

(** * Properties *)

(** ** The synchronous monad *)

Module SyncFacts.

Section SyncFacts.
Context {W Exn : Type}.

Lemma returning_eq : forall (A R : Type) (g : A -> W -> R * W) a w,
  @Expected.returning W Exn A R g a w = (Normal (fst (g a w)), snd (g a w)).
Proof. reflexivity. Qed.

(** A callback that reads its first argument only does not see the index
    and the array [map] hands it. *)
Lemma mapMi_from_unary :
  forall (A B : Type) (f : A -> Sync W Exn B) (array : list A) (index : nat)
         (l : list A) (w : W),
    mapMi_from (fun item _ _ => f item) array index l w = mapM f l w.
Proof.
  intros A B f array index l. revert index.
  induction l as [|a rest IH]; intros index w; simpl.
  - reflexivity.
  - unfold bind. destruct (f a w) as [[b|x] w1]; [|reflexivity].
    now rewrite IH.
Qed.

End SyncFacts.

End SyncFacts.

(** ** Validation *)

Module ValidationFacts.

Import Validation.

Section ValidationFacts.
Context {W Exn : Type} {engine : Engine Exn}.

Lemma pushSpread_fits :
  forall (E T : Type) (errors errs : list E) (w : W),
    spreadable (Invalid errs : Validation E T) ->
    pushSpread errors errs w = (Normal (errors ++ errs), w).
Proof.
  intros E T errors errs w H. unfold pushSpread, spreadable in *.
  destruct spreadLimit as [[limit rangeError]|]; [|reflexivity].
  apply Nat.leb_le in H. now rewrite H.
Qed.

Lemma traverse_loop_visit :
  forall (E A B : Type) (g : A -> W -> Validation E B * W) (items : list A)
         (errors : list E) (values : list B) (w : W),
    Forall spreadable (fst (Expected.visit g items w)) ->
    traverse_loop items (Expected.returning g) errors values w
    = (Normal (errors ++ Expected.errorsOf (fst (Expected.visit g items w)),
               values ++ Expected.valuesOf (fst (Expected.visit g items w))),
       snd (Expected.visit g items w)).
Proof.
  intros E A B g items.
  induction items as [|a rest IH]; intros errors values w Hfit.
  - simpl. unfold ret. now rewrite !app_nil_r.
  - simpl in *. unfold bind at 1. rewrite SyncFacts.returning_eq.
    inversion Hfit as [|r rs Hr Hrs]; subst.
    destruct (g a w) as [r w1] eqn:Hg. simpl in *.
    destruct r as [v|errs]; simpl.
    + rewrite IH by exact Hrs. now rewrite <- app_assoc.
    + unfold bind. rewrite (pushSpread_fits _ B _ _ _ Hr).
      rewrite IH by exact Hrs. now rewrite <- app_assoc.
Qed.

Lemma errorsOf_nil_iff :
  forall (E T : Type) (vs : list (Validation E T)),
    Forall wellFormed vs ->
    (Expected.errorsOf vs = [] <-> forallb isValid vs = true).
Proof.
  intros E T vs Hwf. induction Hwf as [|v rest Hv _ IH]; simpl.
  - tauto.
  - destruct v as [x|errs]; simpl in *.
    + exact IH.
    + split; [|discriminate]. intros H.
      apply app_eq_nil in H. destruct H as [H _]. contradiction.
Qed.

Lemma visit_wellFormed :
  forall (A E B : Type) (g : A -> W -> Validation E B * W) (items : list A) w,
    (forall a w0, wellFormed (fst (g a w0))) ->
    Forall wellFormed (fst (Expected.visit g items w)).
Proof.
  intros A E B g items. induction items as [|a rest IH]; intros w Hg; simpl.
  - constructor.
  - constructor; [apply Hg | apply IH, Hg].
Qed.

Lemma visit_spreadable :
  forall (A E B : Type) (g : A -> W -> Validation E B * W) (items : list A) w,
    (forall a w0, spreadable (fst (g a w0))) ->
    Forall spreadable (fst (Expected.visit g items w)).
Proof.
  intros A E B g items. induction items as [|a rest IH]; intros w Hg; simpl.
  - constructor.
  - constructor; [apply Hg | apply IH, Hg].
Qed.

Lemma traverse_code :
  forall (E A B : Type) (g : A -> W -> Validation E B * W) (items : list A) w,
    Forall spreadable (fst (Expected.visit g items w)) ->
    traverse items (Expected.returning g) w
    = (Normal (match Expected.errorsOf (fst (Expected.visit g items w)) with
               | [] => Valid (Expected.valuesOf (fst (Expected.visit g items w)))
               | _ :: _ =>
                   Invalid (Expected.errorsOf (fst (Expected.visit g items w)))
               end),
       snd (Expected.visit g items w)).
Proof.
  intros E A B g items w Hfit. unfold traverse, bind.
  rewrite traverse_loop_visit by exact Hfit. simpl.
  unfold ret, createValidation.
  destruct (Expected.errorsOf (fst (Expected.visit g items w))); reflexivity.
Qed.


Lemma traverse_spec :
  forall (E A B : Type) (g : A -> W -> Validation E B * W)
         (items : list A) (w : W),
    Forall wellFormed (fst (Expected.visit g items w)) ->
    Forall spreadable (fst (Expected.visit g items w)) ->
    traverse items (Expected.returning g) w
    = (Normal (Expected.traversed (fst (Expected.visit g items w))),
       snd (Expected.visit g items w)).
Proof.
  intros E A B g items w Hwf Hfit. rewrite traverse_code by exact Hfit.
  unfold Expected.traversed.
  pose proof (errorsOf_nil_iff _ _ _ Hwf) as Hiff.
  destruct (Expected.errorsOf (fst (Expected.visit g items w))) as [|e es].
  - destruct Hiff as [Hall _]. now rewrite (Hall eq_refl).
  - destruct (forallb isValid (fst (Expected.visit g items w))); [|reflexivity].
    destruct Hiff as [_ Hnil]. discriminate (Hnil eq_refl).
Qed.

Lemma visit_ret :
  forall (E T : Type) (vs : list (Validation E T)) (w : W),
    Expected.visit (fun v w0 => (v, w0)) vs w = (vs, w).
Proof.
  intros E T vs w. induction vs as [|v rest IH]; simpl.
  - reflexivity.
  - now rewrite IH.
Qed.

End ValidationFacts.

(** C1. [Validation.ap] accumulates errors, the receiver's first: an invalid
    receiver with errors [es1] applied to an invalid argument with errors
    [es2] is invalid with [es1 ++ es2]; [invalid(e1).ap(invalid(e2))] is
    invalid with exactly [[e1; e2]], which differs from [[e2; e1]] as soon as
    the two errors differ; and no function is applied: the call completes
    normally in an unchanged world, also through [map2], whose mapper is at
    hand but never invoked. *)
Theorem ap_accumulates_in_order :
  forall (W Exn E A U : Type) (es1 es2 : list E) (e1 e2 : E) (w : W),
    @ap W Exn E A U (Invalid es1) (Invalid es2) w
    = (Normal (Invalid (es1 ++ es2)), w)
    /\ @ap W Exn E A U (invalid e1) (invalid e2) w
       = (Normal (Invalid [e1; e2]), w)
    /\ (e1 <> e2 ->
        @ap W Exn E A U (invalid e1) (invalid e2) w
        <> (Normal (Invalid [e2; e1]), w))
    /\ (forall (B : Type) (mapper : A -> B -> Sync W Exn U),
           map2 (invalid e1) (invalid e2) mapper w
           = (Normal (Invalid [e1; e2]), w)).
Proof.
  intros. repeat split; try reflexivity.
  intros Hne H. simpl in H. unfold ret, createValidation in H.
  injection H as H _. contradiction.
Qed.

Lemma ap_accumulates_in_order_witness :
  @ap nat nat string nat nat (invalid "fn error"%string)
    (invalid "arg error"%string) 0
  <> (Normal (Invalid ["arg error"%string; "fn error"%string]), 0).
Proof.
  apply (ap_accumulates_in_order nat nat string nat nat [] []
           "fn error"%string "arg error"%string 0).
  discriminate.
Defined.




(** Beyond the bound of the engine the spread call throws, and so does
    [traverse]. *)
Example push_beyond_the_bound_throws :
  traverse (W := unit) (engine := Sample2.tightEngine) [0]
    (fun _ => ret (Invalid ["e1"%string; "e2"%string] : Validation string nat))
    tt
  = (Thrown "RangeError"%string, tt).
Proof. reflexivity. Qed.

Lemma map_wellFormed :
  forall (W Exn E T U : Type) (v : Validation E T) (mapper : T -> Sync W Exn U)
         w r w1,
    wellFormed v -> map v mapper w = (Normal r, w1) -> wellFormed r.
Proof.
  intros W Exn E T U v mapper w r w1 Hv H. destruct v as [x|errs]; simpl in H.
  - unfold bind in H. destruct (mapper x w) as [[u|ex] w2]; [|discriminate].
    injection H as <- _. exact I.
  - injection H as <- _. exact Hv.
Qed.

Lemma ap_wellFormed :
  forall (W Exn E A U : Type) (this : Validation E (A -> Sync W Exn U))
         (arg : Validation E A) w r w1,
    wellFormed this -> wellFormed arg ->
    ap this arg w = (Normal r, w1) -> wellFormed r.
Proof.
  intros W Exn E A U this arg w r w1 Hthis Harg H.
  destruct this as [fn|errs1]; destruct arg as [a|errs2]; simpl in H.
  - unfold bind in H. destruct (fn a w) as [[u|ex] w2]; [|discriminate].
    injection H as <- _. exact I.
  - injection H as <- _. exact Harg.
  - injection H as <- _. exact Hthis.
  - injection H as <- _. simpl in *. intros Happ.
    apply app_eq_nil in Happ. destruct Happ as [Happ _]. contradiction.
Qed.

Lemma traverse_wellFormed :
  forall (W Exn E A B : Type) (engine : Engine Exn) (items : list A)
         (f : A -> Sync W Exn (Validation E B)) w r w1,
    traverse items f w = (Normal r, w1) -> wellFormed r.
Proof.
  intros W Exn E A B engine items f w r w1 H. unfold traverse, bind in H.
  destruct (traverse_loop items f [] [] w) as [[ev|ex] w2]; [|discriminate].
  unfold ret in H. injection H as <- _.
  destruct (fst ev) as [|e es]; simpl; [exact I | discriminate].
Qed.

(** C6. The non-empty-error invariant: [valid], [invalid] and [fromEither]
    build validations that satisfy it, [map], [ap], [map2] and [map3]
    return one that satisfies it when their operands do, and [traverse] and
    [sequence] return one that satisfies it in every case. *)
Theorem nonempty_errors_invariant :
  forall (W Exn E A B C D : Type),
    (forall (a : A), wellFormed (@valid A E a))
    /\ (forall (e : E), wellFormed (@invalid E A e))
    /\ (forall (either : Either.t E A), wellFormed (fromEither either))
    /\ (forall (v : Validation E A) (mapper : A -> Sync W Exn B) w r w1,
           wellFormed v -> map v mapper w = (Normal r, w1) -> wellFormed r)
    /\ (forall (this : Validation E (A -> Sync W Exn B)) (arg : Validation E A)
               w r w1,
           wellFormed this -> wellFormed arg ->
           ap this arg w = (Normal r, w1) -> wellFormed r)
    /\ (forall (valA : Validation E A) (valB : Validation E B)
               (mapper : A -> B -> Sync W Exn C) w r w1,
           wellFormed valA -> wellFormed valB ->
           map2 valA valB mapper w = (Normal r, w1) -> wellFormed r)
    /\ (forall (valA : Validation E A) (valB : Validation E B)
               (valC : Validation E C)
               (mapper : A -> B -> C -> Sync W Exn D) w r w1,
           wellFormed valA -> wellFormed valB -> wellFormed valC ->
           map3 valA valB valC mapper w = (Normal r, w1) -> wellFormed r)
    /\ (forall (engine : Engine Exn) (items : list A)
               (f : A -> Sync W Exn (Validation E B)) w r w1,
           traverse items f w = (Normal r, w1) -> wellFormed r)
    /\ (forall (engine : Engine Exn) (vs : list (Validation E A)) (w : W)
               r w1,
           sequence vs w = (Normal r, w1) -> wellFormed r).
Proof.
  intros W Exn E A B C D. repeat split.
  - intros e. simpl. discriminate.
  - intros either. destruct either; simpl; [discriminate | exact I].
  - intros v mapper w r w1. apply map_wellFormed.
  - intros this arg w r w1. apply ap_wellFormed.
  - intros valA valB mapper w r w1 HA HB H. unfold map2, bind in H.
    destruct (map valA _ w) as [[fn|ex] w2] eqn:Hmap; [|discriminate].
    eapply ap_wellFormed; [| exact HB | exact H].
    eapply map_wellFormed; [exact HA | exact Hmap].
  - intros valA valB valC mapper w r w1 HA HB HC H. unfold map3, bind in H.
    destruct (map valA _ w) as [[fn|ex] w2] eqn:Hmap; [|discriminate].
    destruct (ap fn valB w2) as [[fn2|ex] w3] eqn:Hap; [|discriminate].
    eapply ap_wellFormed; [| exact HC | exact H].
    eapply ap_wellFormed; [| exact HB | exact Hap].
    eapply map_wellFormed; [exact HA | exact Hmap].
  - intros engine items f w r w1. apply traverse_wellFormed.
  - intros engine vs w r w1. apply traverse_wellFormed.
Qed.

Lemma nonempty_errors_invariant_witness :
  wellFormed (Invalid ["e1"%string; "e2"%string] : Validation string nat).
Proof.
  destruct (nonempty_errors_invariant nat nat string nat nat nat nat)
    as (_ & _ & _ & _ & Hap & _).
  refine (Hap (invalid "e1"%string) (invalid "e2"%string) 0 _ 0 _ _ eq_refl);
    simpl; discriminate.
Defined.

End ValidationFacts.

(** ** Promises *)

Module PromiseFacts.

Import Promise.

Section PromiseFacts.
Context {W Exn : Type}.

(** Awaiting [p.then(cb)] is awaiting [p], then calling [cb] on its value,
    then awaiting what [cb] returned. *)
Lemma settle_then :
  forall (A B : Type) (p : t W Exn A) (cb : A -> Sync W Exn (t W Exn B)) env,
    settle (then_ p cb) env
    = match settle p env with
      | (Normal v, env1) =>
          match cb v (fst env1) with
          | (Normal q, w2) => settle q (w2, snd env1)
          | (Thrown x, w2) => (Thrown x, (w2, snd env1))
          end
      | (Thrown x, env1) => (Thrown x, env1)
      end.
Proof.
  intros A B p cb. induction p as [v|x|next IH eff|k IH]; intros env; simpl.
  - destruct (cb v (fst env)) as [[q|x] w2]; reflexivity.
  - reflexivity.
  - apply IH.
  - destruct (snd env); apply IH.
Qed.

Lemma settle_then_value :
  forall (A B : Type) (p : t W Exn A) (cb : A -> Sync W Exn B) env,
    settle (then_value p cb) env
    = match settle p env with
      | (Normal v, env1) =>
          match cb v (fst env1) with
          | (Normal b, w2) => (Normal b, (w2, snd env1))
          | (Thrown x, w2) => (Thrown x, (w2, snd env1))
          end
      | (Thrown x, env1) => (Thrown x, env1)
      end.
Proof.
  intros A B p cb env. unfold then_value. rewrite settle_then.
  destruct (settle p env) as [[v|x] env1]; [|reflexivity].
  unfold bind. destruct (cb v (fst env1)) as [[b|x] w2]; reflexivity.
Qed.

(** The same for any payload type: what the callback returned is resolved,
    so a promise among the values is awaited in its turn. *)
Lemma settle_then_value_adopting :
  forall (A B : Type) (TH : Thenable W Exn B) (p : t W Exn A)
         (cb : A -> Sync W Exn B) env,
    settle (then_value (TH := TH) p cb) env
    = match settle p env with
      | (Normal v, env1) =>
          match cb v (fst env1) with
          | (Normal b, w2) => settle (resolve (TH := TH) b) (w2, snd env1)
          | (Thrown x, w2) => (Thrown x, (w2, snd env1))
          end
      | (Thrown x, env1) => (Thrown x, env1)
      end.
Proof.
  intros A B TH p cb env. unfold then_value. rewrite settle_then.
  destruct (settle p env) as [[v|x] env1]; [|reflexivity].
  unfold bind. destruct (cb v (fst env1)) as [[b|x] w2]; reflexivity.
Qed.

Lemma resolve_plain_value :
  forall (T : Type) (TH : Thenable W Exn T) (v : T),
    asPromise v = None -> resolve (TH := TH) v = Fulfilled v.
Proof. intros T TH v H. unfold resolve. now rewrite H. Qed.

Lemma resolves_to_settle :
  forall {T : Type} {p : t W Exn T} {v},
    resolves_to p v -> forall env, fst (settle p env) = Normal v.
Proof.
  intros T p v H. induction H as [v|next eff v _ IH|k v _ IH]; intros env; simpl.
  - reflexivity.
  - apply IH.
  - destruct (snd env); apply IH.
Qed.

Lemma resolves_to_pmap :
  forall (A B : Type) (f : A -> B) (p : t W Exn A) v,
    resolves_to p v -> resolves_to (pmap f p) (f v).
Proof.
  intros A B f p v H. induction H; simpl; constructor; assumption.
Qed.

Lemma resolves_to_all2 :
  forall {A B : Type} {p : t W Exn A} {q : t W Exn B} {a b},
    resolves_to p a -> resolves_to q b -> resolves_to (all2 p q) (a, b).
Proof.
  intros A B p q a b Hp. revert q.
  induction Hp as [a|np ep a Hnp IHp|k a _ IHp]; intros q Hq.
  - simpl. now apply resolves_to_pmap.
  - induction Hq as [b|nq eq b Hnq IHq|k b _ IHq].
    + simpl. constructor. intros w.
      apply resolves_to_pmap with (f := fun a0 => (a0, b)), Hnp.
    + simpl. constructor. intros [|]; constructor; intros w.
      * apply IHp. now constructor.
      * exact (IHq w IHp).
    + simpl. constructor. intros c. exact (IHq c IHp).
  - simpl. constructor. intros c. now apply IHp.
Qed.

Lemma resolves_to_all :
  forall {T : Type} {ps : list (t W Exn T)} {vs},
    Forall2 resolves_to ps vs -> resolves_to (all ps) vs.
Proof.
  intros T ps vs H. induction H as [|p v ps vs Hp _ IH]; simpl.
  - constructor.
  - apply resolves_to_pmap with (f := fun vr => fst vr :: snd vr) (v := (v, vs)).
    now apply resolves_to_all2.
Qed.

End PromiseFacts.

End PromiseFacts.

(** ** Task *)

Module TaskFacts.

Import Task.

Section TaskFacts.
Context {W Exn : Type}.

(** Awaiting [t.flatMap(f).run()] is awaiting [t.run()], then awaiting
    [f(v).run()] on its value. *)
Lemma exec_task_flatMap :
  forall (T U : Type) (t : Task W Exn T) (f : T -> Sync W Exn (Task W Exn U)) env,
    exec (flatMap t f) env
    = match exec t env with
      | (Normal v, env1) => execOf (f v) env1
      | (Thrown x, env1) => (Thrown x, env1)
      end.
Proof.
  intros T U t f env. unfold exec at 1 2. simpl. unfold bind.
  destruct (run t (fst env)) as [[p|x] w1]; simpl; [|reflexivity].
  rewrite PromiseFacts.settle_then.
  destruct (Promise.settle p (w1, snd env)) as [[v|x] env1]; [|reflexivity].
  unfold execOf, exec.
  destruct (f v (fst env1)) as [[t2|x] w2]; reflexivity.
Qed.

Lemma exec_task :
  forall (T : Type) (a : T) (env : W * list bool),
    exec (Exn := Exn) (task a) env = (Normal a, env).
Proof. intros T a [w o]. reflexivity. Qed.

(** [task(value)] for any payload type: a value that is not a promise is
    what the run resolves with; a promise is what the run returns. *)
Lemma exec_task_value :
  forall (T : Type) (TH : Promise.Thenable W Exn T) (a : T)
         (env : W * list bool),
    Promise.asPromise a = None ->
    exec (task (TH := TH) a) env = (Normal a, env).
Proof.
  intros T TH a [w o] H. unfold exec, task. simpl. unfold ret.
  now rewrite PromiseFacts.resolve_plain_value.
Qed.

Lemma exec_task_promise :
  forall (T : Type) (TH : Promise.Thenable W Exn T) (a : T)
         (p : Promise.t W Exn T) (env : W * list bool),
    Promise.asPromise a = Some p ->
    exec (task (TH := TH) a) env = Promise.settle p env.
Proof.
  intros T TH a p [w o] H. unfold exec, task. simpl. unfold ret.
  unfold Promise.resolve. now rewrite H.
Qed.

(** Awaiting [t.tap(s).run()] is awaiting [t.run()], then calling [s] on
    its value, then resolving that value again. *)
Lemma exec_tap_adopting :
  forall (T R : Type) (TH : Promise.Thenable W Exn T) (t : Task W Exn T)
         (s : T -> Sync W Exn R) env,
    exec (tap (TH := TH) t s) env
    = match exec t env with
      | (Normal v, env1) =>
          match s v (fst env1) with
          | (Normal _, w2) =>
              Promise.settle (Promise.resolve (TH := TH) v) (w2, snd env1)
          | (Thrown x, w2) => (Thrown x, (w2, snd env1))
          end
      | (Thrown x, env1) => (Thrown x, env1)
      end.
Proof.
  intros T R TH t s env. unfold exec. simpl. unfold bind.
  destruct (run t (fst env)) as [[p|x] w1]; simpl; [|reflexivity].
  rewrite PromiseFacts.settle_then_value_adopting.
  destruct (Promise.settle p (w1, snd env)) as [[v|x] env1]; [|reflexivity].
  destruct (s v (fst env1)) as [[r|x] w2]; reflexivity.
Qed.

End TaskFacts.

(** C10. [Task.tap] under an effectful side effect, for a task whose run
    resolves with [v] (a value that is not itself a promise, as every value
    a promise resolves with): the call of [run] on [t.tap(s)] returns a
    promise; when the side effect returns normally, that promise resolves
    with [v], whatever the side effect returned: a promise it returns is
    neither awaited nor adopted, be it rejected or still pending; a side
    effect that returns [undefined] has been called once, on [v], after the
    run of [t] and before the result is there; when the side effect throws,
    the promise is rejected with the thrown value.  What the jobs of a
    promise the side effect returned have done by then is not stated. *)
Theorem tap_side_effect :
  forall (W Exn T R X : Type) (TH : Promise.Thenable W Exn T)
         (t : Task W Exn T) (s : T -> Sync W Exn R)
         (env env1 : W * list bool) (v : T),
    exec t env = (Normal v, env1) ->
    Promise.asPromise v = None ->
    (exists q w1,
        run (tap t s) (fst env) = (Normal q, w1)
        /\ exec (tap t s) env = Promise.settle q (w1, snd env))
    /\ (forall r w2, s v (fst env1) = (Normal r, w2) ->
                     fst (exec (tap t s) env) = Normal v)
    /\ (forall (q : Promise.t W Exn X),
           fst (exec (tap t (fun _ => ret q)) env) = Normal v)
    /\ (forall (s0 : T -> Sync W Exn unit) w2,
           s0 v (fst env1) = (Normal tt, w2) ->
           exec (tap t s0) env = (Normal v, (w2, snd env1)))
    /\ (forall x w2, s v (fst env1) = (Thrown x, w2) ->
                     exec (tap t s) env = (Thrown x, (w2, snd env1))).
Proof.
  intros W Exn T R X TH t s env env1 v Ht Hv.
  split; [|split; [|split; [|split]]].
  - unfold exec in *. simpl. unfold bind.
    destruct (run t (fst env)) as [[p|x] w1]; [|discriminate].
    eexists. eexists. split; reflexivity.
  - intros r w2 Hs. rewrite exec_tap_adopting, Ht, Hs.
    now rewrite PromiseFacts.resolve_plain_value.
  - intros q. rewrite exec_tap_adopting, Ht. unfold ret.
    now rewrite PromiseFacts.resolve_plain_value.
  - intros s0 w2 Hs. rewrite exec_tap_adopting, Ht, Hs.
    now rewrite PromiseFacts.resolve_plain_value.
  - intros x w2 Hs. rewrite exec_tap_adopting, Ht, Hs. reflexivity.
Qed.

Lemma tap_side_effect_witness :
  exec (tap (task 42) Sample.failing) ([], [])
  = (Thrown "boom"%string, ([42], [])).
Proof.
  exact (proj2 (proj2 (proj2 (proj2
           (tap_side_effect (list nat) string nat nat nat (Promise.plain nat)
              (task 42) Sample.failing ([], []) ([], []) 42
              eq_refl eq_refl))))
           "boom"%string [42] eq_refl).
Defined.

End TaskFacts.

(** ** TaskEither *)

Module TaskEitherFacts.

Import TaskEither.

Section TaskEitherFacts.
Context {W Exn : Type}.

Lemma exec_taskEither_flatMap :
  forall (E T U : Type) (te : TaskEither W Exn E T)
         (f : T -> Sync W Exn (TaskEither W Exn E U)) env,
    exec (flatMap te f) env
    = match exec te env with
      | (Normal (Either.Left e), env1) => (Normal (Either.Left e), env1)
      | (Normal (Either.Right v), env1) => execOf (f v) env1
      | (Thrown x, env1) => (Thrown x, env1)
      end.
Proof.
  intros E T U te f env. unfold exec at 1 2. simpl. unfold bind.
  destruct (run te (fst env)) as [[p|x] w1]; simpl; [|reflexivity].
  rewrite PromiseFacts.settle_then.
  destruct (Promise.settle p (w1, snd env)) as [[[e|v]|x] env1];
    simpl; [destruct env1; reflexivity | | reflexivity].
  unfold execOf, exec, bind.
  destruct (f v (fst env1)) as [[te2|x] w2]; reflexivity.
Qed.

Lemma exec_taskEither :
  forall (E T : Type) (a : T) (env : W * list bool),
    exec (Exn := Exn) (E := E) (taskEither a) env = (Normal (Either.Right a), env).
Proof. intros E T a [w o]. reflexivity. Qed.

End TaskEitherFacts.

(** C3. [TaskEither.flatMap] short-circuits on error: when the run of [te]
    resolves to [left(e)], the run of [te.flatMap(f)] resolves to [left(e)]
    and leaves the world exactly as the run of [te] alone does, for every
    mapper [f], so neither [f] nor the thunk of a TaskEither it returns has
    been called; when the run of [te] resolves to [right(v)], the run of
    [te.flatMap(f)] continues as the run of [f(v)]. *)
Theorem flatMap_short_circuits :
  forall (W Exn E T U : Type) (te : TaskEither W Exn E T)
         (f : T -> Sync W Exn (TaskEither W Exn E U)) (env env1 : W * list bool),
    (forall e, exec te env = (Normal (Either.left e), env1) ->
               exec (flatMap te f) env = (Normal (Either.left e), env1))
    /\ (forall v, exec te env = (Normal (Either.right v), env1) ->
                  exec (flatMap te f) env = execOf (f v) env1).
Proof.
  intros W Exn E T U te f env env1. split.
  - intros e H. rewrite exec_taskEither_flatMap, H. reflexivity.
  - intros v H. rewrite exec_taskEither_flatMap, H. reflexivity.
Qed.

Lemma flatMap_short_circuits_witness :
  exec (flatMap (taskLeft "err"%string) Sample.recordingStep) ([], [])
  = (Normal (Either.left "err"%string), ([], []))
  /\ exec (flatMap (taskEither 5) Sample.recordingStep) ([], [])
     = (Normal (Either.right 10), ([5; 105], [])).
Proof.
  split.
  - exact (proj1 (flatMap_short_circuits (list nat) string string nat nat
                    (taskLeft "err"%string) Sample.recordingStep
                    ([], []) ([], []))
             "err"%string eq_refl).
  - exact (proj2 (flatMap_short_circuits (list nat) string string nat nat
                    (taskEither 5) Sample.recordingStep ([], []) ([], []))
             5 eq_refl).
Defined.

Lemma all_loop_rights :
  forall (E T : Type) (vs : list T) (rest : list (Either.t E T)) (out : list T),
    all_loop (List.map Either.right vs ++ rest) out = all_loop rest (out ++ vs).
Proof.
  intros E T vs. induction vs as [|v vs IH]; intros rest out; simpl.
  - now rewrite app_nil_r.
  - rewrite IH. now rewrite <- app_assoc.
Qed.

Lemma mapM_run_resolves :
  forall {W Exn E T : Type} {tes : list (TaskEither W Exn E T)} {outcomes},
    Forall2 resolves tes outcomes ->
    forall w, exists ps w1,
      mapM run tes w = (Normal ps, w1)
      /\ Forall2 Promise.resolves_to ps outcomes.
Proof.
  intros W Exn E T tes outcomes H.
  induction H as [|te o tes outcomes Hte _ IH]; intros w; simpl.
  - exists [], w. split; [reflexivity | constructor].
  - destruct (Hte w) as (p & w1 & Hrun & Hp).
    destruct (IH w1) as (ps & w2 & Hmap & Hps).
    exists (p :: ps), w2. split.
    + unfold bind. rewrite Hrun, Hmap. reflexivity.
    + now constructor.
Qed.

Lemma exec_all :
  forall {W Exn E T : Type} {tes : list (TaskEither W Exn E T)} {outcomes},
    Forall2 resolves tes outcomes ->
    forall env, fst (exec (all tes) env) = Normal (all_loop outcomes []).
Proof.
  intros W Exn E T tes outcomes H env. unfold exec. simpl. unfold bind.
  destruct (mapM_run_resolves H (fst env)) as (ps & w1 & Hmap & Hps).
  rewrite Hmap. simpl. rewrite PromiseFacts.settle_then_value.
  pose proof (PromiseFacts.resolves_to_settle
                (PromiseFacts.resolves_to_all Hps) (w1, snd env)) as Hall.
  destruct (Promise.settle (Promise.all ps) (w1, snd env)) as [[vs|x] env1];
    simpl in Hall; [|discriminate].
  injection Hall as ->. reflexivity.
Qed.

Lemma exec_all_observed :
  forall {W Exn E T : Type} (tes : list (TaskEither W Exn E T)) env ps w1
         outcomes env2,
    mapM run tes (fst env) = (Normal ps, w1) ->
    Promise.settle (Promise.all ps) (w1, snd env) = (Normal outcomes, env2) ->
    exec (all tes) env = (Normal (all_loop outcomes []), env2).
Proof.
  intros W Exn E T tes env ps w1 outcomes env2 Hmap Hall.
  unfold exec. simpl. unfold bind. rewrite Hmap. simpl.
  rewrite PromiseFacts.settle_then_value, Hall. simpl.
  destruct env2; reflexivity.
Qed.

(** C2. [all(list)] for TaskEithers.  The run calls [run] on every element,
    waits for all the promises, and then scans their outcomes in input
    order, in an unchanged world: whatever outcomes the branches resolved
    to on a schedule, the result is the scan of these outcomes.  When
    every outcome is a success the scan is the success of the list of
    values in input order (the empty list gives the empty list); when some
    outcome is an error the scan is the error of the first element, in
    input order, whose outcome is an error.  For elements that each resolve
    to a given outcome this holds on every schedule of the event loop, so
    the selected error does not depend on which branch finished first. *)
Theorem all_first_error_in_input_order :
  forall (W Exn E T : Type) (tes : list (TaskEither W Exn E T))
         (outcomes : list (Either.t E T)),
    Forall2 resolves tes outcomes ->
    forall env : W * list bool,
      (forall vs, outcomes = List.map Either.right vs ->
                  fst (exec (all tes) env) = Normal (Either.right vs))
      /\ (forall vs e rest,
             outcomes = List.map Either.right vs ++ Either.left e :: rest ->
             fst (exec (all tes) env) = Normal (Either.left e))
      /\ exec (all (@nil (TaskEither W Exn E T))) env
         = (Normal (Either.right []), env)
      /\ (forall (others : list (TaskEither W Exn E T)) ps w1 observed env2,
             mapM run others (fst env) = (Normal ps, w1) ->
             Promise.settle (Promise.all ps) (w1, snd env)
             = (Normal observed, env2) ->
             exec (all others) env = (Normal (all_loop observed []), env2)
             /\ (forall vs, observed = List.map Either.right vs ->
                            all_loop observed [] = Either.right vs)
             /\ (forall vs e rest,
                    observed
                    = List.map Either.right vs ++ Either.left e :: rest ->
                    all_loop observed [] = Either.left e)).
Proof.
  intros W Exn E T tes outcomes H env.
  split; [|split; [|split]].
  - intros vs ->. rewrite (exec_all H).
    rewrite <- (app_nil_r (List.map Either.right vs)).
    now rewrite all_loop_rights.
  - intros vs e rest ->. rewrite (exec_all H).
    now rewrite all_loop_rights.
  - destruct env; reflexivity.
  - intros others ps w1 observed env2 Hmap Hall.
    split; [now apply exec_all_observed with ps w1|].
    split.
    + intros vs ->. rewrite <- (app_nil_r (List.map Either.right vs)).
      now rewrite all_loop_rights.
    + intros vs e rest ->. now rewrite all_loop_rights.
Qed.

Lemma all_first_error_in_input_order_witness :
  fst (exec (all [Sample.after 3 (Either.right 1);
                  Sample.after 2 (Either.left "late"%string);
                  Sample.after 0 (Either.left "early"%string)])
         (tt, [false; true; false; false]))
  = Normal (Either.left "late"%string).
Proof.
  refine (proj1 (proj2 (all_first_error_in_input_order
                   unit string string nat _
                   [Either.right 1; Either.left "late"%string;
                    Either.left "early"%string]
                   _ (tt, [false; true; false; false]))) [1] "late"%string
            [Either.left "early"%string] eq_refl).
  repeat constructor; intros w; eexists; eexists; (split; [reflexivity|]);
    simpl; repeat constructor.
Defined.

(** C4. Applicative short-circuit: [left(e1).ap(left(e2))] on [Either] is
    [left(e1)], so it is not [left(e2)] when the two errors differ, and
    nothing is accumulated; a TaskEither that resolves to [left(e1)] applied
    to a TaskEither that resolves to [left(e2)] resolves to [left(e1)] on
    every schedule. *)
Theorem ap_first_error_wins :
  forall (W Exn E A U : Type) (e1 e2 : E),
    (forall w : W,
        @Either.ap W Exn E A U (Either.left e1) (Either.left e2) w
        = (Normal (Either.left e1), w))
    /\ (forall w : W,
           e1 <> e2 ->
           @Either.ap W Exn E A U (Either.left e1) (Either.left e2) w
           <> (Normal (Either.left e2), w))
    /\ (forall (this : TaskEither W Exn E (A -> Sync W Exn U))
               (arg : TaskEither W Exn E A),
           resolves this (Either.left e1) ->
           resolves arg (Either.left e2) ->
           forall env, fst (exec (ap this arg) env) = Normal (Either.left e1)).
Proof.
  intros W Exn E A U e1 e2. split; [reflexivity | split].
  - intros w Hne H. simpl in H. unfold ret, Either.left in H.
    injection H as H. contradiction.
  - intros this arg Hthis Harg env. unfold exec. simpl. unfold bind.
    destruct (Hthis (fst env)) as (pf & w1 & Hrf & Hpf).
    destruct (Harg w1) as (pa & w2 & Hra & Hpa).
    rewrite Hrf, Hra. simpl. rewrite PromiseFacts.settle_then_value.
    pose proof (PromiseFacts.resolves_to_settle
                  (PromiseFacts.resolves_to_all2 Hpf Hpa) (w2, snd env))
      as Hboth.
    destruct (Promise.settle (Promise.all2 pf pa) (w2, snd env))
      as [[fa|x] env1]; simpl in Hboth; [|discriminate].
    injection Hboth as ->. reflexivity.
Qed.

Lemma ap_first_error_wins_witness :
  fst (exec (ap (Sample.after 2 (Either.left "first"%string)
                 : TaskEither unit string string (nat -> Sync unit string nat))
              (Sample.after 1 (Either.left "second"%string)))
         (tt, [false; true]))
  = Normal (Either.left "first"%string).
Proof.
  refine (proj2 (proj2 (ap_first_error_wins unit string string nat nat
                          "first"%string "second"%string))
            (Sample.after 2 (Either.left "first"%string))
            (Sample.after 1 (Either.left "second"%string)) _ _
            (tt, [false; true]));
    intros w; eexists; eexists; (split; [reflexivity|]);
    simpl; repeat constructor.
Defined.

End TaskEitherFacts.

(** ** Monad laws *)

Module MonadLaws.

(** C8. Left identity, right identity and associativity of
    [flatMap] on [Either], [Task] and [TaskEither].  Two sides are equal
    when they complete alike and leave the same world: for [Either], as the
    code that evaluates them; for [Task] and [TaskEither], as awaited runs,
    on every schedule.  The payload type of [Task] may have promises among
    its values.  Left identity on [Task] holds for every value that is not
    itself a promise; for a promise [p], [task(p)] runs as [p], so
    [task(p).flatMap(f)] calls [f] on the value of [p], or rejects as [p]
    does without calling [f].  Right identity on [Task] is stated for the
    runs that resolve with a value that is not a promise, which are all the
    runs there are: no promise is fulfilled with a promise.  The other laws
    hold for every value, every [m] and all [f] and [g]. *)
Theorem flatMap_monad_laws :
  forall (W Exn E A B C : Type) (TH : Promise.Thenable W Exn A),
    (forall (a : A) (f : A -> Sync W Exn (Either.t E B)) w,
        Either.flatMap (Either.right a) f w = f a w)
    /\ (forall (m : Either.t E A) (w : W),
           Either.flatMap (Exn := Exn) m (fun x => ret (Either.right x)) w
           = (Normal m, w))
    /\ (forall (m : Either.t E A) (f : A -> Sync W Exn (Either.t E B))
               (g : B -> Sync W Exn (Either.t E C)) w,
           (r <- Either.flatMap m f ;; Either.flatMap r g) w
           = Either.flatMap m (fun x => r <- f x ;; Either.flatMap r g) w)
    /\ (forall (a : A) (f : A -> Sync W Exn (Task.Task W Exn B)) env,
           Promise.asPromise (Thenable := TH) a = None ->
           Task.exec (Task.flatMap (Task.task (TH := TH) a) f) env
           = Task.execOf (f a) env)
    /\ (forall (a : A) (p : Promise.t W Exn A)
               (f : A -> Sync W Exn (Task.Task W Exn B)) env,
           Promise.asPromise (Thenable := TH) a = Some p ->
           Task.exec (Task.flatMap (Task.task (TH := TH) a) f) env
           = match Promise.settle p env with
             | (Normal v, env1) => Task.execOf (f v) env1
             | (Thrown x, env1) => (Thrown x, env1)
             end)
    /\ (forall (m : Task.Task W Exn A) env,
           (forall v env1, Task.exec m env = (Normal v, env1) ->
                           Promise.asPromise (Thenable := TH) v = None) ->
           Task.exec
             (Task.flatMap m (fun x => ret (Task.task (TH := TH) x))) env
           = Task.exec m env)
    /\ (forall (m : Task.Task W Exn A) (f : A -> Sync W Exn (Task.Task W Exn B))
               (g : B -> Sync W Exn (Task.Task W Exn C)) env,
           Task.exec (Task.flatMap (Task.flatMap m f) g) env
           = Task.exec
               (Task.flatMap m (fun x => t <- f x ;; ret (Task.flatMap t g)))
               env)
    /\ (forall (a : A)
               (f : A -> Sync W Exn (TaskEither.TaskEither W Exn E B)) env,
           TaskEither.exec (TaskEither.flatMap (TaskEither.taskEither a) f) env
           = TaskEither.execOf (f a) env)
    /\ (forall (m : TaskEither.TaskEither W Exn E A) env,
           TaskEither.exec
             (TaskEither.flatMap m (fun x => ret (TaskEither.taskEither x))) env
           = TaskEither.exec m env)
    /\ (forall (m : TaskEither.TaskEither W Exn E A)
               (f : A -> Sync W Exn (TaskEither.TaskEither W Exn E B))
               (g : B -> Sync W Exn (TaskEither.TaskEither W Exn E C)) env,
           TaskEither.exec (TaskEither.flatMap (TaskEither.flatMap m f) g) env
           = TaskEither.exec
               (TaskEither.flatMap m
                  (fun x => t <- f x ;; ret (TaskEither.flatMap t g)))
               env).
Proof.
  intros W Exn E A B C TH.
  split; [reflexivity|].
  split; [intros [e|v] w; reflexivity|].
  split.
  { intros [e|v] f g w; simpl; [reflexivity|].
    unfold bind. destruct (f v w) as [[r|x] w1]; reflexivity. }
  split.
  { intros a f env Ha.
    rewrite TaskFacts.exec_task_flatMap, TaskFacts.exec_task_value by exact Ha.
    reflexivity. }
  split.
  { intros a p f env Ha.
    rewrite TaskFacts.exec_task_flatMap, (TaskFacts.exec_task_promise _ _ _ p)
      by exact Ha.
    reflexivity. }
  split.
  { intros m env Hm. rewrite TaskFacts.exec_task_flatMap.
    destruct (Task.exec m env) as [[v|x] env1] eqn:He; [|reflexivity].
    unfold Task.execOf, ret. simpl.
    rewrite TaskFacts.exec_task_value by exact (Hm v env1 eq_refl).
    now destruct env1. }
  split.
  { intros m f g env. rewrite !TaskFacts.exec_task_flatMap.
    destruct (Task.exec m env) as [[v|x] env1]; [|reflexivity].
    unfold Task.execOf, bind.
    destruct (f v (fst env1)) as [[t|x] w1]; [|reflexivity].
    simpl. now rewrite TaskFacts.exec_task_flatMap. }
  split.
  { intros a f env.
    rewrite TaskEitherFacts.exec_taskEither_flatMap, TaskEitherFacts.exec_taskEither.
    reflexivity. }
  split.
  { intros m env. rewrite TaskEitherFacts.exec_taskEither_flatMap.
    destruct (TaskEither.exec m env) as [[[e|v]|x] [w1 o1]]; reflexivity. }
  intros m f g env. rewrite !TaskEitherFacts.exec_taskEither_flatMap.
  destruct (TaskEither.exec m env) as [[[e|v]|x] env1]; try reflexivity.
  unfold TaskEither.execOf, bind.
  destruct (f v (fst env1)) as [[t|x] w1]; [|reflexivity].
  simpl. now rewrite TaskEitherFacts.exec_taskEither_flatMap.
Qed.

Lemma flatMap_monad_laws_witness :
  Task.exec
    (Task.flatMap (Task.task (Dynamic.Num 5)) Dynamic.tellPromise)
    (tt, [])
  = Task.execOf (W := unit) (Exn := string)
      (Dynamic.tellPromise (Dynamic.Num 5)) (tt, []).
Proof.
  exact (proj1 (proj2 (proj2 (proj2
           (flatMap_monad_laws unit string nat
              (Dynamic.Val unit string) (Dynamic.Val unit string) nat
              Dynamic.thenable))))
           (Dynamic.Num 5) Dynamic.tellPromise (tt, []) eq_refl).
Defined.

(** Left identity fails on a promise: with [p = Promise.resolve(5)] and
    [f = v => task(v instanceof Promise ? 1 : 0)], the run of
    [task(p).flatMap(f)] resolves with 0, since [f] is called on 5, and the
    run of [f(p)] resolves with 1. *)
Lemma left_identity_fails_on_promise_value :
  Task.exec (W := unit) (Exn := string)
    (Task.flatMap (Task.task Dynamic.five) Dynamic.tellPromise) (tt, [])
  = (Normal (Dynamic.Num 0), (tt, []))
  /\ Task.execOf (W := unit) (Exn := string)
       (Dynamic.tellPromise Dynamic.five) (tt, [])
     = (Normal (Dynamic.Num 1), (tt, []))
  /\ Task.exec (W := unit) (Exn := string)
       (Task.flatMap (Task.task Dynamic.five) Dynamic.tellPromise) (tt, [])
     <> Task.execOf (Dynamic.tellPromise Dynamic.five) (tt, []).
Proof.
  split; [reflexivity|]. split; [reflexivity|].
  intros H. vm_compute in H. discriminate H.
Qed.

(** On a rejected promise [task(p).flatMap(f)] rejects and [f] is not
    called, while the run of [f(p)] resolves. *)
Example left_identity_on_rejected_promise :
  Task.exec (W := unit) (Exn := string)
    (Task.flatMap (Task.task (Dynamic.Prom (Promise.Rejected "no"%string)))
       Dynamic.tellPromise) (tt, [])
  = (Thrown "no"%string, (tt, []))
  /\ Task.execOf (W := unit) (Exn := string)
       (Dynamic.tellPromise (Dynamic.Prom (Promise.Rejected "no"%string)))
       (tt, [])
     = (Normal (Dynamic.Num 1), (tt, [])).
Proof. split; reflexivity. Qed.

End MonadLaws.

(** ** Non-memoization *)

Module NonMemoization.

Section NonMemoization.
Context {W Exn : Type}.

Lemma settle_inTest :
  forall (T : Type) (p : Promise.t W Exn T) w c schedule,
    Promise.settle (Mock.inTest p) ((w, c), schedule)
    = (fst (Promise.settle p (w, schedule)),
       ((fst (snd (Promise.settle p (w, schedule))), c),
        snd (snd (Promise.settle p (w, schedule))))).
Proof.
  intros T p. induction p as [v|x|next IH eff|k IH]; intros w c schedule; simpl.
  - reflexivity.
  - reflexivity.
  - apply IH.
  - destruct schedule; apply IH.
Qed.

Lemma fn_counts_one :
  forall (T : Type) (thunk : Sync W Exn (Promise.t W Exn T)) wc,
    Mock.calls (snd (Mock.fn thunk wc)) = S (Mock.calls wc).
Proof.
  intros T thunk wc. unfold Mock.fn.
  destruct (thunk (fst wc)) as [[p|x] w1]; reflexivity.
Qed.

Lemma times_run_counts :
  forall (T : Type) (thunk : Sync W Exn (Promise.t W Exn T)) n wc,
    Mock.calls (snd (Mock.times n (Mock.fn thunk) wc)) = Mock.calls wc + n.
Proof.
  intros T thunk n. induction n as [|n IH]; intros wc; simpl.
  - lia.
  - rewrite IH, fn_counts_one. lia.
Qed.

Lemma task_awaited_counts_one :
  forall (T : Type) (thunk : Sync W Exn (Promise.t W Exn T)) env,
    Mock.calls (fst (snd (Task.exec (Task.fromPromise (Mock.fn thunk)) env)))
    = S (Mock.calls (fst env)).
Proof.
  intros T thunk [[w c] schedule]. unfold Task.exec, Mock.fn. simpl.
  destruct (thunk w) as [[p|x] w1]; [|reflexivity].
  rewrite settle_inTest. reflexivity.
Qed.

Lemma task_times_awaited_counts :
  forall (T : Type) (thunk : Sync W Exn (Promise.t W Exn T)) n env,
    Mock.calls
      (fst (snd (Mock.times n (Task.exec (Task.fromPromise (Mock.fn thunk))) env)))
    = Mock.calls (fst env) + n.
Proof.
  intros T thunk n. induction n as [|n IH]; intros env; simpl.
  - lia.
  - rewrite IH, task_awaited_counts_one. lia.
Qed.

Lemma taskEither_awaited_counts_one :
  forall (E T : Type) (thunk : Sync W Exn (Promise.t W Exn (Either.t E T))) env,
    Mock.calls
      (fst (snd (TaskEither.exec
                   (TaskEither.createTaskEither (Mock.fn thunk)) env)))
    = S (Mock.calls (fst env)).
Proof.
  intros E T thunk [[w c] schedule]. unfold TaskEither.exec, Mock.fn. simpl.
  destruct (thunk w) as [[p|x] w1]; [|reflexivity].
  rewrite settle_inTest. reflexivity.
Qed.

Lemma taskEither_times_awaited_counts :
  forall (E T : Type) (thunk : Sync W Exn (Promise.t W Exn (Either.t E T))) n env,
    Mock.calls
      (fst (snd (Mock.times n
                   (TaskEither.exec
                      (TaskEither.createTaskEither (Mock.fn thunk))) env)))
    = Mock.calls (fst env) + n.
Proof.
  intros E T thunk n. induction n as [|n IH]; intros env; simpl.
  - lia.
  - rewrite IH, taskEither_awaited_counts_one. lia.
Qed.

Lemma ticket_runs :
  forall n count (schedule : list bool),
    fst (Mock.times n (Task.exec (Exn := Exn) (Task.fromPromise Mock.ticket))
           (count, schedule))
    = List.map Normal (seq count n).
Proof.
  intros n. induction n as [|n IH]; intros count schedule; simpl.
  - reflexivity.
  - f_equal. apply IH.
Qed.

End NonMemoization.

(** C7. Non-memoization of [Task] and [TaskEither].  For a task built from
    a mocked callable, [n] calls of [run()], awaited or not, are [n] calls
    of the callable, so two runs are two calls and no run is no call; [run]
    is the callable itself, evaluated in the world of the call, so nothing
    of an earlier run is kept in the task: a callable that resolves with the
    number of its earlier calls makes successive runs of the same task
    resolve with successive numbers. *)
Theorem run_is_not_memoized :
  forall (W Exn E T : Type)
         (thunk : Task.TaskValue W Exn T)
         (thunkE : TaskEither.TaskEitherValue W Exn E T)
         (n : nat) (w : W) (schedule : list bool),
    Mock.calls
      (snd (Mock.times n (Task.run (Task.fromPromise (Mock.fn thunk))) (w, 0)))
    = n
    /\ Mock.calls
         (fst (snd (Mock.times n (Task.exec (Task.fromPromise (Mock.fn thunk)))
                      ((w, 0), schedule))))
       = n
    /\ Mock.calls
         (snd (Mock.times n
                 (TaskEither.run (TaskEither.createTaskEither (Mock.fn thunkE)))
                 (w, 0)))
       = n
    /\ Mock.calls
         (fst (snd (Mock.times n
                      (TaskEither.exec
                         (TaskEither.createTaskEither (Mock.fn thunkE)))
                      ((w, 0), schedule))))
       = n
    /\ Task.run (Task.fromPromise thunk) w = thunk w
    /\ TaskEither.run (TaskEither.createTaskEither thunkE) w = thunkE w
    /\ fst (Mock.times n
              (Task.exec (Exn := Exn) (Task.fromPromise Mock.ticket))
              (0, schedule))
       = List.map Normal (seq 0 n).
Proof.
  intros W Exn E T thunk thunkE n w schedule.
  split; [apply (times_run_counts _ thunk n (w, 0))|].
  split; [apply (task_times_awaited_counts _ thunk n ((w, 0), schedule))|].
  split; [apply (times_run_counts _ thunkE n (w, 0))|].
  split;
    [apply (taskEither_times_awaited_counts _ _ thunkE n ((w, 0), schedule))|].
  split; [reflexivity|].
  split; [reflexivity|].
  apply ticket_runs.
Qed.

End NonMemoization.

(** ** Concurrent start *)

Module ConcurrentStart.

Import Trace.

Section ConcurrentStart.
Context {Exn : Type}.

Lemma yields_eq :
  forall (T : Type) (p : Promise.t Log Exn T) v l l',
    yields p v l -> l = l' -> yields p v l'.
Proof. intros T p v l l' H <-. exact H. Qed.

Lemma yields_silent_job :
  forall (T : Type) (next : Log -> Promise.t Log Exn T) eff v l,
    (forall log, eff log = log) ->
    (forall log, yields (next log) v l) ->
    yields (Promise.Pending next eff) v l.
Proof.
  intros T next eff v l Heff Hnext.
  change l with ([] ++ l). apply yields_job; [|exact Hnext].
  intros log. now rewrite app_nil_r.
Qed.

Lemma yields_settle :
  forall {T : Type} {p : Promise.t Log Exn T} {v l},
    yields p v l ->
    forall log schedule, exists l' schedule',
      Promise.settle p (log, schedule) = (Normal v, (log ++ l', schedule'))
      /\ Permutation l l'.
Proof.
  intros T p v l H.
  induction H as [v|next eff v l1 l2 Heff _ IH|k v l _ IH|p v l l' _ IH Hperm];
    intros log schedule.
  - exists [], schedule. rewrite app_nil_r. split; [reflexivity | constructor].
  - simpl. rewrite Heff.
    destruct (IH log (log ++ l1) schedule) as (l' & schedule' & Hs & Hp).
    exists (l1 ++ l'), schedule'. rewrite Hs, <- app_assoc.
    split; [reflexivity | now apply Permutation_app_head].
  - simpl. destruct schedule as [|c schedule]; apply IH.
  - destruct (IH log schedule) as (l0 & schedule' & Hs & Hp).
    exists l0, schedule'. split; [exact Hs|].
    apply Permutation_trans with l; [now apply Permutation_sym | exact Hp].
Qed.

Lemma yields_pmap :
  forall (A B : Type) (f : A -> B) (p : Promise.t Log Exn A) v l,
    yields p v l -> yields (Promise.pmap f p) (f v) l.
Proof.
  intros A B f p v l H.
  induction H as [v|next eff v l1 l2 Heff _ IH|k v l _ IH|p v l l' _ IH Hperm];
    simpl.
  - constructor.
  - now constructor.
  - now constructor.
  - now apply yields_perm with l.
Qed.

Lemma yields_all2 :
  forall {A B : Type} {p : Promise.t Log Exn A} {q : Promise.t Log Exn B}
         {a b la lb},
    yields p a la -> yields q b lb -> yields (Promise.all2 p q) (a, b) (la ++ lb).
Proof.
  intros A B p q a b la lb Hp. revert q lb.
  induction Hp as [a|np ep a l1 l2 Hep Hnp IHp|k a la _ IHp
                  |p a la la' _ IHp Hperm]; intros q lb Hq.
  - simpl. now apply yields_pmap with (f := fun b0 => (a, b0)).
  - induction Hq as [b|nq eq b m1 m2 Heq Hnq IHq|k b lb _ IHq
                    |q b lb lb' _ IHq Hperm].
    + simpl. rewrite app_nil_r. apply yields_job; [exact Hep|].
      intros log. apply yields_pmap with (f := fun a0 => (a0, b)), Hnp.
    + simpl. apply yields_choice. intros [|].
      * rewrite <- app_assoc. apply yields_job; [exact Hep|].
        intros log. apply IHp. now apply yields_job.
      * apply yields_perm with (m1 ++ ((l1 ++ l2) ++ m2)).
        -- apply yields_job; [exact Heq|]. intros log. exact (IHq log IHp).
        -- apply Permutation_app_swap_app.
    + simpl. apply yields_choice. intros c. exact (IHq c IHp).
    + apply yields_perm with ((l1 ++ l2) ++ lb).
      * exact (IHq IHp).
      * now apply Permutation_app_head.
  - simpl. apply yields_choice. intros c. now apply IHp.
  - apply yields_perm with (la ++ lb).
    + now apply IHp.
    + now apply Permutation_app_tail.
Qed.

Lemma yields_then :
  forall (A B : Type) (p : Promise.t Log Exn A)
         (cb : A -> Sync Log Exn (Promise.t Log Exn B)) v b l l2,
    yields p v l ->
    (forall log, exists q, cb v log = (Normal q, log) /\ yields q b l2) ->
    yields (Promise.then_ p cb) b (l ++ l2).
Proof.
  intros A B p cb v b l l2 H Hcb.
  induction H as [v|next eff v l1 l3 Heff _ IH|k v l _ IH|p v l l' _ IH Hperm];
    simpl.
  - apply yields_silent_job.
    + intros log. destruct (Hcb log) as (q & Hq & _). now rewrite Hq.
    + intros log. destruct (Hcb log) as (q & Hq & Hy). now rewrite Hq.
  - rewrite <- app_assoc. constructor; [exact Heff|].
    intros log. now apply IH.
  - constructor. intros c. now apply IH.
  - apply yields_perm with (l ++ l2); [now apply IH|].
    now apply Permutation_app_tail.
Qed.

Lemma yields_then_value :
  forall (A B : Type) (p : Promise.t Log Exn A) (cb : A -> Sync Log Exn B)
         v b l,
    yields p v l ->
    (forall log, cb v log = (Normal b, log)) ->
    yields (Promise.then_value p cb) b l.
Proof.
  intros A B p cb v b l H Hcb. unfold Promise.then_value.
  apply yields_eq with (l ++ []); [|apply app_nil_r].
  apply yields_then with v; [exact H|].
  intros log. exists (Promise.resolve b). split.
  - unfold bind. now rewrite Hcb.
  - constructor.
Qed.

Lemma yields_delay :
  forall (T : Type) (d : nat) (p : Promise.t Log Exn T) v l,
    yields p v l -> yields (Promise.delay d p) v l.
Proof.
  intros T d p v l H. induction d as [|d IH]; simpl.
  - exact H.
  - apply yields_silent_job; [reflexivity | intros _; exact IH].
Qed.

Lemma yields_all :
  forall (T : Type) (ps : list (Promise.t Log Exn T)) (specs : list (nat * T)),
    Forall2 (fun p spec => yields p (snd spec) [Resolved (fst spec)]) ps specs ->
    yields (Promise.all ps) (List.map snd specs)
           (List.map Resolved (List.map fst specs)).
Proof.
  intros T ps specs H. induction H as [|p spec ps specs Hp _ IH]; simpl.
  - constructor.
  - apply yields_pmap with (f := fun vr => fst vr :: snd vr)
                           (v := (snd spec, List.map snd specs)).
    change (Resolved (fst spec) :: List.map Resolved (List.map fst specs))
      with ([Resolved (fst spec)] ++ List.map Resolved (List.map fst specs)).
    now apply yields_all2.
Qed.

Ltac probe_yields :=
  intros log; eexists; split; [reflexivity|];
  apply yields_delay;
  match goal with
  | |- yields _ _ [?e] => apply yields_eq with ([e] ++ []); [|reflexivity]
  end;
  apply yields_job; [reflexivity | intros _; constructor].

Lemma probe_traced :
  forall (T : Type) (d : nat) (spec : nat * T),
    traced (Exn := Exn) (probe d spec) spec.
Proof. intros T d spec. probe_yields. Qed.

Lemma probeE_traced :
  forall (E T : Type) (d : nat) (spec : nat * Either.t E T),
    tracedE (Exn := Exn) (probeE d spec) spec.
Proof. intros E T d spec. probe_yields. Qed.

(** Calling [run] on every element in turn invokes every callable, in
    order, and no job of any promise has run yet. *)
Lemma mapM_traced :
  forall {X T : Type} (run : X -> Sync Log Exn (Promise.t Log Exn T))
         {xs : list X} {specs : list (nat * T)},
    Forall2 (fun x spec =>
               forall log, exists p,
                 run x log = (Normal p, log ++ [Invoked (fst spec)])
                 /\ yields p (snd spec) [Resolved (fst spec)]) xs specs ->
    forall log, exists ps,
      mapM run xs log
      = (Normal ps, log ++ List.map Invoked (List.map fst specs))
      /\ Forall2 (fun p spec => yields p (snd spec) [Resolved (fst spec)])
                 ps specs.
Proof.
  intros X T run xs specs H.
  induction H as [|x spec xs specs Hx _ IH]; intros log; simpl.
  - exists []. rewrite app_nil_r. split; [reflexivity | constructor].
  - destruct (Hx log) as (p & Hrun & Hp).
    destruct (IH (log ++ [Invoked (fst spec)])) as (ps & Hmap & Hps).
    exists (p :: ps). split.
    + unfold bind. rewrite Hrun, Hmap, <- app_assoc. reflexivity.
    + now constructor.
Qed.

Lemma started_of_settle :
  forall {R : Type} {p : Promise.t Log Exn R} log schedule ids {v},
    yields p v (List.map Resolved ids) ->
    startedTogether
      (Promise.settle p (log ++ List.map Invoked ids, schedule)) log ids v.
Proof.
  intros R p log schedule ids v Hp.
  destruct (yields_settle Hp (log ++ List.map Invoked ids) schedule)
    as (l & schedule' & Hs & Hperm).
  exists l, schedule'. split; [|exact Hperm].
  rewrite app_assoc. exact Hs.
Qed.

Lemma task_all_started :
  forall (T : Type) (tasks : list (Task.Task Log Exn T)) specs log schedule,
    Forall2 traced tasks specs ->
    startedTogether (Task.exec (Task.all tasks) (log, schedule)) log
      (List.map fst specs) (List.map snd specs).
Proof.
  intros T tasks specs log schedule H. unfold Task.exec. simpl. unfold bind.
  destruct (mapM_traced Task.run H log) as (ps & Hmap & Hps).
  rewrite Hmap. simpl. apply started_of_settle, yields_all, Hps.
Qed.

Lemma traced_map :
  forall (T U : Type) (t : Task.Task Log Exn T) (mapper : T -> Sync Log Exn U)
         i v u,
    traced t (i, v) ->
    (forall log, mapper v log = (Normal u, log)) ->
    traced (Task.map t mapper) (i, u).
Proof.
  intros T U t mapper i v u Ht Hm log.
  destruct (Ht log) as (p & Hrun & Hp). simpl in *.
  exists (Promise.then_value p mapper). split.
  - unfold bind. now rewrite Hrun.
  - now apply yields_then_value with v.
Qed.

Lemma task_ap_started :
  forall (A U : Type) (this : Task.Task Log Exn (A -> Sync Log Exn U))
         (arg : Task.Task Log Exn A) i j fn a u log schedule,
    traced this (i, fn) -> traced arg (j, a) ->
    (forall log0, fn a log0 = (Normal u, log0)) ->
    startedTogether (Task.exec (Task.ap this arg) (log, schedule)) log [i; j] u.
Proof.
  intros A U this arg i j fn a u log schedule Hthis Harg Hfn.
  unfold Task.exec. simpl. unfold bind.
  destruct (Hthis log) as (pf & Hrf & Hpf).
  destruct (Harg (log ++ [Invoked i])) as (pa & Hra & Hpa). simpl in *.
  rewrite Hrf, Hra, <- app_assoc. simpl.
  apply (started_of_settle log schedule [i; j]).
  apply yields_then_value with (fn, a); [|exact Hfn].
  apply (yields_all2 Hpf Hpa).
Qed.

Lemma tracedE_map :
  forall (E T U : Type) (te : TaskEither.TaskEither Log Exn E T)
         (f : T -> U) i either,
    tracedE te (i, either) ->
    tracedE (TaskEither.map te (fun value => ret (f value)))
            (i, match either with
                | Either.Left e => Either.Left e
                | Either.Right v => Either.Right (f v)
                end).
Proof.
  intros E T U te f i either Hte log.
  destruct (Hte log) as (p & Hrun & Hp). simpl in *.
  eexists. split.
  - unfold bind. rewrite Hrun. reflexivity.
  - apply yields_eq with ([Resolved i] ++ []); [|reflexivity].
    apply yields_then with either; [exact Hp|].
    intros log0. destruct either as [e|v]; simpl.
    + eexists. split; [reflexivity | constructor].
    + eexists. split; [reflexivity | constructor].
Qed.

Lemma taskEither_ap_started :
  forall (E A U : Type)
         (this : TaskEither.TaskEither Log Exn E (A -> Sync Log Exn U))
         (arg : TaskEither.TaskEither Log Exn E A) i j ef ea r log schedule,
    tracedE this (i, ef) -> tracedE arg (j, ea) ->
    (forall log0, Either.ap ef ea log0 = (Normal r, log0)) ->
    startedTogether (TaskEither.exec (TaskEither.ap this arg) (log, schedule))
      log [i; j] r.
Proof.
  intros E A U this arg i j ef ea r log schedule Hthis Harg Hap.
  unfold TaskEither.exec. simpl. unfold bind.
  destruct (Hthis log) as (pf & Hrf & Hpf).
  destruct (Harg (log ++ [Invoked i])) as (pa & Hra & Hpa). simpl in *.
  rewrite Hrf, Hra, <- app_assoc. simpl.
  apply (started_of_settle log schedule [i; j]).
  apply yields_then_value with (ef, ea); [|exact Hap].
  apply (yields_all2 Hpf Hpa).
Qed.

End ConcurrentStart.

(** C9. Concurrent start of the applicative and collection combinators of
    [Task] and [TaskEither].  The callables are observed through the log:
    each records [Invoked] when it is called and its promise records
    [Resolved] when it resolves.  For [all] (so for [all([A, B])]),
    [sequence], [traverse], [ap] and [zip] on tasks, and for [all], [ap]
    and [zip] on TaskEithers, an awaited run invokes every callable, in
    input order, before any of them resolves, on every schedule, and the
    values of the result are in input order whatever the order in which the
    promises resolved. *)
Theorem combinators_start_concurrently :
  forall (Exn E T A U : Type) (log : Log) (schedule : list bool),
    (forall (tasks : list (Task.Task Log Exn T)) specs,
        Forall2 traced tasks specs ->
        startedTogether (Task.exec (Task.all tasks) (log, schedule)) log
          (List.map fst specs) (List.map snd specs))
    /\ (forall (tasks : list (Task.Task Log Exn T)) specs,
           Forall2 traced tasks specs ->
           startedTogether (Task.exec (Task.sequence tasks) (log, schedule)) log
             (List.map fst specs) (List.map snd specs))
    /\ (forall (items : list A)
               (mapper : A -> Sync Log Exn (Task.Task Log Exn T)) specs,
           Forall2 (fun item spec =>
                      forall log0, exists t,
                        mapper item log0 = (Normal t, log0) /\ traced t spec)
                   items specs ->
           startedTogether
             (Task.execOf (Task.traverse items mapper) (log, schedule)) log
             (List.map fst specs) (List.map snd specs))
    /\ (forall (this : Task.Task Log Exn (A -> Sync Log Exn U))
               (arg : Task.Task Log Exn A) i j fn a u,
           traced this (i, fn) -> traced arg (j, a) ->
           (forall log0, fn a log0 = (Normal u, log0)) ->
           startedTogether (Task.exec (Task.ap this arg) (log, schedule)) log
             [i; j] u)
    /\ (forall (t : Task.Task Log Exn T) (other : Task.Task Log Exn A) i j v a,
           traced t (i, v) -> traced other (j, a) ->
           startedTogether (Task.exec (Task.zip t other) (log, schedule)) log
             [i; j] (v, a))
    /\ (forall (tes : list (TaskEither.TaskEither Log Exn E T)) specs,
           Forall2 tracedE tes specs ->
           startedTogether
             (TaskEither.exec (TaskEither.all tes) (log, schedule)) log
             (List.map fst specs)
             (TaskEither.all_loop (List.map snd specs) []))
    /\ (forall (this : TaskEither.TaskEither Log Exn E (A -> Sync Log Exn U))
               (arg : TaskEither.TaskEither Log Exn E A) i j ef ea r,
           tracedE this (i, ef) -> tracedE arg (j, ea) ->
           (forall log0, Either.ap ef ea log0 = (Normal r, log0)) ->
           startedTogether
             (TaskEither.exec (TaskEither.ap this arg) (log, schedule)) log
             [i; j] r)
    /\ (forall (te : TaskEither.TaskEither Log Exn E T)
               (other : TaskEither.TaskEither Log Exn E A) i j e1 e2,
           tracedE te (i, e1) -> tracedE other (j, e2) ->
           startedTogether
             (TaskEither.exec (TaskEither.zip te other) (log, schedule)) log
             [i; j] (Expected.zipped e1 e2)).
Proof.
  intros Exn E T A U log schedule.
  split; [intros tasks specs H; now apply task_all_started|].
  split; [intros tasks specs H; now apply task_all_started|].
  split.
  { intros items mapper specs H.
    assert (Hmap : forall log0, exists tasks,
               mapM mapper items log0 = (Normal tasks, log0)
               /\ Forall2 traced tasks specs).
    { induction H as [|item spec items specs Hitem _ IH]; intros log0; simpl.
      - exists []. split; [reflexivity | constructor].
      - destruct (Hitem log0) as (t & Hm & Ht).
        destruct (IH log0) as (tasks & Hms & Hts).
        exists (t :: tasks). unfold bind. rewrite Hm, Hms.
        split; [reflexivity | now constructor]. }
    destruct (Hmap log) as (tasks & Hms & Hts).
    unfold Task.execOf, Task.traverse, Task.traverseWith, mapMi, bind. simpl.
    rewrite SyncFacts.mapMi_from_unary, Hms. simpl.
    now apply task_all_started. }
  split; [intros this arg i j fn a u; apply task_ap_started|].
  split.
  { intros t other i j v a Ht Hother. unfold Task.zip.
    apply task_ap_started with (fn := fun a0 => ret (v, a0)) (a := a);
      [|exact Hother|reflexivity].
    now apply traced_map with v. }
  split.
  { intros tes specs H. unfold TaskEither.exec. simpl. unfold bind.
    destruct (mapM_traced TaskEither.run H log) as (ps & Hmap & Hps).
    rewrite Hmap. simpl. apply started_of_settle.
    apply yields_then_value with (List.map snd specs); [|reflexivity].
    apply yields_all, Hps. }
  split; [intros this arg i j ef ea r; apply taskEither_ap_started|].
  intros te other i j e1 e2 Hte Hother. unfold TaskEither.zip.
  eapply taskEither_ap_started;
    [apply tracedE_map with (f := fun value a0 => ret (value, a0)), Hte
    |exact Hother|].
  intros log0. destruct e1 as [x|v]; destruct e2 as [y|a]; reflexivity.
Qed.

Lemma combinators_start_concurrently_witness :
  startedTogether (Exn := string)
    (Task.exec (Task.all [probe 2 (0, "A"%string); probe 0 (1, "B"%string)])
       ([], [false; true]))
    [] [0; 1] ["A"%string; "B"%string].
Proof.
  refine (proj1 (combinators_start_concurrently string nat string nat nat
                   [] [false; true])
            [probe 2 (0, "A"%string); probe 0 (1, "B"%string)]
            [(0, "A"%string); (1, "B"%string)] _).
  repeat constructor; apply probe_traced.
Defined.

(** The same two probes under two schedules: the promises resolve in
    different orders, the array is the same. *)
Example all_result_order_b_first :
  Task.exec (Exn := string)
    (Task.all [probe 1 (0, "A"%string); probe 1 (1, "B"%string)])
    ([], [false; false])
  = (Normal ["A"%string; "B"%string],
     ([Invoked 0; Invoked 1; Resolved 1; Resolved 0], [])).
Proof. reflexivity. Qed.

Example all_result_order_a_first :
  Task.exec (Exn := string)
    (Task.all [probe 1 (0, "A"%string); probe 1 (1, "B"%string)])
    ([], [true; true])
  = (Normal ["A"%string; "B"%string],
     ([Invoked 0; Invoked 1; Resolved 0; Resolved 1], [])).
Proof. reflexivity. Qed.

End ConcurrentStart.

(** ** The example scenarios of the specification *)

Module Scenarios.

Example map2_valid :
  Validation.map2 (W := unit) (Exn := string) (E := string)
    (Validation.valid 2) (Validation.valid 3) (fun a b => ret (a * b)) tt
  = (Normal (Validation.Valid 6), tt).
Proof. reflexivity. Qed.

Example map2_invalid :
  Validation.map2 (Validation.invalid "e1"%string)
    (Validation.invalid "e2"%string) (fun a b => Sample.recording (a + b)) []
  = (Normal (Validation.Invalid ["e1"%string; "e2"%string]), []).
Proof. reflexivity. Qed.

Example map3_accumulates :
  Validation.map3 (W := unit) (Exn := string)
    (Validation.invalid "e1"%string) (Validation.valid 2)
    (Validation.invalid "e3"%string) (fun a b c => ret (a + b + c)) tt
  = (Normal (Validation.Invalid ["e1"%string; "e3"%string]), tt).
Proof. reflexivity. Qed.

Example sequence_accumulates :
  Validation.sequence (W := unit) (Exn := string)
    [Validation.valid 1; Validation.invalid "e1"%string;
     Validation.invalid "e2"%string] tt
  = (Normal (Validation.Invalid ["e1"%string; "e2"%string]), tt).
Proof. reflexivity. Qed.

Example all_with_a_left :
  TaskEither.exec (W := unit) (Exn := string)
    (TaskEither.all [TaskEither.taskEither 1; TaskEither.taskLeft "err"%string;
                     TaskEither.taskEither 3]) (tt, [])
  = (Normal (Either.left "err"%string), (tt, [])).
Proof. reflexivity. Qed.

Example task_map :
  Task.exec (W := unit) (Exn := string)
    (Task.map (Task.task 5) (fun x => ret (x * 2))) (tt, [])
  = (Normal 10, (tt, [])).
Proof. reflexivity. Qed.

Example taskEither_flatMap :
  TaskEither.exec (W := unit) (Exn := string) (E := string)
    (TaskEither.flatMap (TaskEither.taskEither 10)
       (fun x => ret (TaskEither.taskEither (x * 2)))) (tt, [])
  = (Normal (Either.right 20), (tt, [])).
Proof. reflexivity. Qed.

Example task_zip :
  Task.exec (W := unit) (Exn := string)
    (Task.zip (Task.task "Alice"%string) (Task.task 30)) (tt, [])
  = (Normal ("Alice"%string, 30), (tt, [])).
Proof. reflexivity. Qed.

Example taskEither_zip_left :
  TaskEither.exec (W := unit) (Exn := string)
    (TaskEither.zip (TaskEither.taskEither "Alice"%string)
       (TaskEither.taskLeft (T := nat) "No age"%string)) (tt, [])
  = (Normal (Either.left "No age"%string), (tt, [])).
Proof. reflexivity. Qed.

Example taskEither_orElse :
  TaskEither.exec (W := unit) (Exn := string)
    (TaskEither.orElse (TaskEither.taskLeft "error"%string)
       (fun _ => ret (TaskEither.taskEither 0))) (tt, [])
  = (Normal (Either.right 0), (tt, [])).
Proof. reflexivity. Qed.

End Scenarios.

(** * Further properties of the code *)

(** ** Validation: functor, applicative, helpers *)

Module ValidationMore.

Import Validation.

(** X1. [map] is a functor on the valid branch, also for mappers with effects:
    mapping the identity changes nothing, mapping twice is mapping the
    composition (the second mapper runs only if the first returned), and an
    invalid passes through with its errors, no mapper being called. *)
Theorem validation_map_functor :
  forall (W Exn E T U V : Type) (v : Validation E T)
         (f : T -> Sync W Exn U) (g : U -> Sync W Exn V) (w : W),
    map (Exn := Exn) v (fun x => ret x) w = (Normal v, w)
    /\ (r <- map v f ;; map r g) w = map v (fun x => u <- f x ;; g u) w
    /\ (forall errors : list E,
           (r <- map (Invalid errors) f ;; map r g) w
           = (Normal (Invalid errors), w)).
Proof.
  intros W Exn E T U V v f g w. split; [|split].
  - destruct v; reflexivity.
  - destruct v as [x|errors]; simpl; [|reflexivity].
    unfold bind. destruct (f x w) as [[u|ex] w1]; reflexivity.
  - reflexivity.
Qed.

(** X2. The four cases of [ap] and the applicative laws: a valid function is
    applied to a valid argument; an invalid on either side alone gives its
    errors and the function is not applied; the identity, homomorphism and
    interchange laws hold for functions with effects, and the composition
    law holds for functions without effect, because the errors of three
    operands are concatenated associatively. *)
Theorem validation_ap_laws :
  forall (W Exn E A B C : Type) (w : W),
    (forall (fn : A -> Sync W Exn B) (a : A),
        ap (Valid fn) (Valid a) w = (u <- fn a ;; ret (@Valid E B u)) w)
    /\ (forall (fn : A -> Sync W Exn B) (errors : list E),
           ap (Valid fn) (Invalid errors) w = (Normal (Invalid errors), w))
    /\ (forall (errors : list E) (a : A),
           @ap W Exn E A B (Invalid errors) (Valid a) w
           = (Normal (Invalid errors), w))
    /\ (forall (v : Validation E A),
           ap (Exn := Exn) (valid (fun x => ret x)) v w = (Normal v, w))
    /\ (forall (u : Validation E (A -> Sync W Exn B)) (y : A),
           ap u (valid y) w = ap (valid (fun fn => fn y)) u w)
    /\ (forall (u : Validation E (B -> C)) (v : Validation E (A -> B))
               (x : Validation E A),
           (c1 <- ap (Exn := Exn) (valid (fun f : B -> C =>
                               ret (fun g : A -> B =>
                                      ret (fun a : A => ret (f (g a))))))
                    u ;;
            c2 <- ap c1 v ;;
            ap c2 x) w
           = (r <- ap (Outcome.pureFn v) x ;; ap (Outcome.pureFn u) r) w).
Proof.
  intros W Exn E A B C w.
  split; [reflexivity|].
  split; [reflexivity|].
  split; [reflexivity|].
  split; [intros [a|errors]; reflexivity|].
  split.
  - intros [fn|errors] y; simpl; [|reflexivity].
    unfold bind. destruct (fn y w) as [[b|ex] w1]; reflexivity.
  - intros [f|eu] [g|ev] [a|ex]; simpl; try reflexivity.
    unfold bind. simpl. unfold ret, createValidation.
    now rewrite <- app_assoc.
Qed.

(** X3. [map2] and [map3] call their mapper exactly when every operand is
    valid; otherwise the result is invalid with the errors of the operands
    concatenated in operand order, and the world is left alone. *)
Theorem map2_map3_accumulate :
  forall (W Exn E A B C D : Type) (valA : Validation E A)
         (valB : Validation E B) (valC : Validation E C)
         (mapper2 : A -> B -> Sync W Exn D)
         (mapper3 : A -> B -> C -> Sync W Exn D) (w : W),
    map2 valA valB mapper2 w
    = match valA, valB with
      | Valid a, Valid b => (d <- mapper2 a b ;; ret (Valid d)) w
      | _, _ =>
          (Normal (Invalid (Outcome.errorsIn valA ++ Outcome.errorsIn valB)), w)
      end
    /\ map3 valA valB valC mapper3 w
       = match valA, valB, valC with
         | Valid a, Valid b, Valid c => (d <- mapper3 a b c ;; ret (Valid d)) w
         | _, _, _ =>
             (Normal (Invalid (Outcome.errorsIn valA ++ Outcome.errorsIn valB
                               ++ Outcome.errorsIn valC)), w)
         end.
Proof.
  intros W Exn E A B C D valA valB valC mapper2 mapper3 w. split.
  - destruct valA as [a|ea]; destruct valB as [b|eb]; simpl;
      try reflexivity.
    unfold ret, createValidation. now rewrite app_nil_r.
  - destruct valA as [a|ea]; destruct valB as [b|eb];
      destruct valC as [c|ec]; simpl; unfold ret, createValidation;
      try reflexivity;
      rewrite ?app_nil_r, ?app_assoc; reflexivity.
Qed.




Lemma forallb_isValid_errorsOf :
  forall {E T : Type} (vs : list (Validation E T)),
    forallb isValid vs = true -> Expected.errorsOf vs = [].
Proof.
  intros E T vs. induction vs as [|[v|errs] vs IH]; simpl; intros H.
  - reflexivity.
  - now apply IH.
  - discriminate.
Qed.

Lemma applicativeTraverse_traversed :
  forall {W Exn E A B : Type} (h : A -> Validation E B) (items : list A) (w : W),
    Outcome.applicativeTraverse (Exn := Exn) items h w
    = (Normal (Expected.traversed (List.map h items)), w).
Proof.
  intros W Exn E A B h items w. induction items as [|a rest IH]; simpl.
  - reflexivity.
  - unfold bind at 1. rewrite IH. unfold Expected.traversed. simpl.
    destruct (h a) as [b|errs]; simpl;
      destruct (forallb isValid (List.map h rest)) eqn:Hall; simpl;
      try reflexivity.
    unfold ret, createValidation.
    now rewrite (forallb_isValid_errorsOf _ Hall), app_nil_r.
Qed.

(** X5. [traverse] with a callback without effect is the traversal the
    applicative gives: folding the items from the right with [map2] returns
    the same validation, when the validations produced satisfy the
    invariant of the data model and the errors of each invalid one are few
    enough for one call of [push] in the engine.  In particular [sequence]
    of valid values returns them all, in order, in every engine. *)
Theorem traverse_is_applicative :
  forall (W Exn E A B : Type) (engine : Engine Exn)
         (h : A -> Validation E B) (items : list A) (w : W),
    (forall a, wellFormed (h a)) ->
    (forall a, spreadable (h a)) ->
    traverse items (fun a => ret (h a)) w
    = Outcome.applicativeTraverse items h w
    /\ (forall values : list B,
           sequence (List.map (@valid B E) values) w
           = (Normal (valid values), w)).
Proof.
  intros W Exn E A B engine h items w Hwf Hfit. split.
  - rewrite applicativeTraverse_traversed.
    change (fun a : A => ret (h a))
      with (@Expected.returning W Exn _ _ (fun (a : A) (w0 : W) => (h a, w0))).
    rewrite ValidationFacts.traverse_spec.
    + assert (Hv : forall l w0,
                 Expected.visit (fun (a : A) (w1 : W) => (h a, w1)) l w0
                 = (List.map h l, w0)).
      { intros l. induction l as [|a l IH]; intros w0; simpl.
        - reflexivity.
        - now rewrite IH. }
      now rewrite Hv.
    + apply ValidationFacts.visit_wellFormed. intros a w0. apply Hwf.
    + apply ValidationFacts.visit_spreadable. intros a w0. apply Hfit.
  - intros values. unfold sequence.
    change (fun v : Validation E B => ret v)
      with (@Expected.returning W Exn _ _
              (fun (v : Validation E B) (w0 : W) => (v, w0))).
    rewrite ValidationFacts.traverse_code; rewrite ValidationFacts.visit_ret;
      simpl.
    + assert (He : Expected.errorsOf (List.map (@valid B E) values) = []).
      { induction values as [|b values IH]; simpl; [reflexivity | exact IH]. }
      assert (Hval : Expected.valuesOf (List.map (@valid B E) values) = values).
      { induction values as [|b values IH]; simpl; [reflexivity|].
        f_equal. apply IH. simpl in He. exact He. }
      rewrite He, Hval. reflexivity.
    + apply Forall_forall. intros v Hin. apply in_map_iff in Hin.
      destruct Hin as [b [<- _]]. unfold spreadable, valid.
      destruct spreadLimit as [[limit rangeError]|]; exact I.
Qed.

Lemma traverse_is_applicative_witness :
  traverse (W := unit) (engine := Sample2.tightEngine) [-1; 2; -3]%Z
    (fun a => ret (fst (Sample.checkPositive a 0))) tt
  = Outcome.applicativeTraverse [-1; 2; -3]%Z
      (fun a => fst (Sample.checkPositive a 0)) tt.
Proof.
  refine (proj1 (traverse_is_applicative unit string Z Z Z
                   Sample2.tightEngine
                   (fun a => fst (Sample.checkPositive a 0))
                   [-1; 2; -3]%Z tt _ _)).
  - intros a. unfold Sample.checkPositive. simpl.
    destruct (0 <? a)%Z; simpl; [exact I | discriminate].
  - intros a. unfold Sample.checkPositive. simpl.
    destruct (0 <? a)%Z; simpl; [exact I | apply le_n].
Defined.

(** X6. [tap] is [map] with a mapper that runs the side effect and gives its
    argument back, so it returns the validation it was called on, runs the
    side effect on a valid value only, and lets a throw of the side effect
    through; [map] followed by [getOrElse] is [match]: exactly one of the
    fallback and the mapper is called. *)
Theorem validation_tap_getOrElse :
  forall (W Exn E T U R : Type) (v : Validation E T)
         (s : T -> Sync W Exn R) (f : T -> Sync W Exn U)
         (fallback : list E -> Sync W Exn U) (w : W),
    tap v s w = map v (fun x => _ <- s x ;; ret x) w
    /\ match fst (tap v s w) with
       | Normal r => r = v
       | Thrown _ => True
       end
    /\ (r <- map v f ;; getOrElse r fallback) w = match_ v fallback f w.
Proof.
  intros W Exn E T U R v s f fallback w. split; [|split].
  - destruct v as [x|errors]; unfold tap, map; simpl; [|reflexivity].
    unfold bind. destruct (s x w) as [[r|ex] w1]; reflexivity.
  - destruct v as [x|errors]; unfold tap; simpl; [|reflexivity].
    unfold bind. destruct (s x w) as [[u|ex] w2]; simpl; [reflexivity | exact I].
  - destruct v as [x|errors]; simpl; [|reflexivity].
    unfold bind. destruct (f x w) as [[u|ex] w1]; reflexivity.
Qed.

(** X7. [fromEither] carries [right] to valid and [left] to an invalid with that
    one error; it commutes with [map], and with [ap] except on two lefts,
    where the validation keeps both errors, the receiver's first, and the
    either would have kept one. *)
Theorem fromEither_and_ap :
  forall (W Exn E A B : Type) (ef : Either.t E (A -> B)) (ea : Either.t E A)
         (f : A -> B) (w : W),
    map (Exn := Exn) (fromEither ea) (fun a => ret (f a)) w
    = (Normal (fromEither (Outcome.mapped f ea)), w)
    /\ ap (Exn := Exn) (Outcome.pureFn (fromEither ef)) (fromEither ea) w
       = (Normal
            match ef, ea with
            | Either.Left e1, Either.Left e2 => Invalid [e1; e2]
            | _, _ => fromEither (Outcome.applied ef ea)
            end, w).
Proof.
  intros W Exn E A B ef ea f w. split.
  - destruct ea; reflexivity.
  - destruct ef; destruct ea; reflexivity.
Qed.

End ValidationMore.

(** ** Task: functor, flatten, sequencing, collections *)

Module TaskMore.

Import Task.

Lemma settle_pmap :
  forall {W Exn A B : Type} (f : A -> B) (p : Promise.t W Exn A) env,
    Promise.settle (Promise.pmap f p) env
    = (match fst (Promise.settle p env) with
       | Normal v => Normal (f v)
       | Thrown x => Thrown x
       end, snd (Promise.settle p env)).
Proof.
  intros W Exn A B f p.
  induction p as [v|x|next IH eff|k IH]; intros env; simpl.
  - reflexivity.
  - reflexivity.
  - apply IH.
  - destruct (snd env); apply IH.
Qed.

Lemma resolves_to_then_pure :
  forall {W Exn A B : Type} (p : Promise.t W Exn A)
         (cb : A -> Sync W Exn (Promise.t W Exn B)) v q b,
    Promise.resolves_to p v ->
    (forall w, cb v w = (Normal q, w)) ->
    Promise.resolves_to q b ->
    Promise.resolves_to (Promise.then_ p cb) b.
Proof.
  intros W Exn A B p cb v q b Hp Hcb Hq.
  induction Hp as [v|next eff v _ IH|k v _ IH]; simpl.
  - constructor. intros w. now rewrite Hcb.
  - constructor. intros w. now apply IH.
  - constructor. intros c. now apply IH.
Qed.

Lemma mapM_stops_at_throw :
  forall {W Exn A B : Type} (f : A -> Sync W Exn B) (pre post : list A) a
         w bs w1 x w2,
    mapM f pre w = (Normal bs, w1) ->
    f a w1 = (Thrown x, w2) ->
    mapM f (pre ++ a :: post) w = (Thrown x, w2).
Proof.
  intros W Exn A B f pre post a.
  induction pre as [|a0 pre IH]; intros w bs w1 x w2 Hpre Ha; simpl in *.
  - injection Hpre as <- <-. unfold bind. now rewrite Ha.
  - unfold bind in *. destruct (f a0 w) as [[b|x0] w3]; [|discriminate].
    destruct (mapM f pre w3) as [[bs0|x0] w4] eqn:Hrest; [|discriminate].
    injection Hpre as <- <-.
    now rewrite (IH w3 bs0 w4 x w2 Hrest Ha).
Qed.

Lemma exec_task_map :
  forall {W Exn T U : Type} (t : Task W Exn T) (f : T -> Sync W Exn U) env,
    exec (map t f) env
    = match exec t env with
      | (Normal v, env1) =>
          match f v (fst env1) with
          | (Normal u, w2) => (Normal u, (w2, snd env1))
          | (Thrown x, w2) => (Thrown x, (w2, snd env1))
          end
      | (Thrown x, env1) => (Thrown x, env1)
      end.
Proof.
  intros W Exn T U t f env. unfold exec. simpl. unfold bind.
  destruct (run t (fst env)) as [[p|x] w1]; simpl; [|reflexivity].
  apply PromiseFacts.settle_then_value.
Qed.

(** The same for any payload type: what the mapper returned is resolved,
    so a promise it returned is awaited in its turn. *)
Lemma exec_task_map_adopting :
  forall {W Exn T U : Type} (TH : Promise.Thenable W Exn U)
         (t : Task W Exn T) (f : T -> Sync W Exn U) env,
    exec (map (TH := TH) t f) env
    = match exec t env with
      | (Normal v, env1) =>
          match f v (fst env1) with
          | (Normal u, w2) =>
              Promise.settle (Promise.resolve (TH := TH) u) (w2, snd env1)
          | (Thrown x, w2) => (Thrown x, (w2, snd env1))
          end
      | (Thrown x, env1) => (Thrown x, env1)
      end.
Proof.
  intros W Exn T U TH t f env. unfold exec. simpl. unfold bind.
  destruct (run t (fst env)) as [[p|x] w1]; simpl; [|reflexivity].
  apply PromiseFacts.settle_then_value_adopting.
Qed.

(** X8. [Task.map], the payload types having promises among their values
    or not: the awaited run of [t.map(f)] is the awaited run of [t]
    followed by [f] on its value and by the resolution of what [f]
    returned, a throw of [f] rejecting the run and a rejection of [t]
    skipping [f]; a value that is not a promise is what the run resolves
    with, and a promise returned by [f] is awaited in its turn.  So mapping
    the identity changes nothing; mapping twice is mapping the composition
    when the first mapper does not return a promise; and [t.map(f)] runs as
    [t.flatMap(v => task(f(v)))]. *)
Theorem task_map_functor :
  forall (W Exn T U V : Type) (THT : Promise.Thenable W Exn T)
         (THU : Promise.Thenable W Exn U) (THV : Promise.Thenable W Exn V)
         (t : Task W Exn T) (f : T -> Sync W Exn U)
         (g : U -> Sync W Exn V) (env : W * list bool),
    exec (map (TH := THU) t f) env
    = match exec t env with
      | (Normal v, env1) =>
          match f v (fst env1) with
          | (Normal u, w2) =>
              Promise.settle (Promise.resolve (TH := THU) u) (w2, snd env1)
          | (Thrown x, w2) => (Thrown x, (w2, snd env1))
          end
      | (Thrown x, env1) => (Thrown x, env1)
      end
    /\ (forall v env1 u w2,
           exec t env = (Normal v, env1) ->
           f v (fst env1) = (Normal u, w2) ->
           Promise.asPromise (Thenable := THU) u = None ->
           exec (map (TH := THU) t f) env = (Normal u, (w2, snd env1)))
    /\ ((forall v env1, exec t env = (Normal v, env1) ->
                        Promise.asPromise (Thenable := THT) v = None) ->
        exec (map (TH := THT) t (fun x => ret x)) env = exec t env)
    /\ ((forall v env1 u w2,
            exec t env = (Normal v, env1) ->
            f v (fst env1) = (Normal u, w2) ->
            Promise.asPromise (Thenable := THU) u = None) ->
        exec (map (TH := THV) (map (TH := THU) t f) g) env
        = exec (map (TH := THV) t (fun x => u <- f x ;; g u)) env)
    /\ exec (map (TH := THU) t f) env
       = exec (flatMap t (fun v => u <- f v ;; ret (task (TH := THU) u))) env.
Proof.
  intros W Exn T U V THT THU THV t f g env.
  split; [apply exec_task_map_adopting|].
  split.
  { intros v env1 u w2 Ht Hf Hu. rewrite exec_task_map_adopting, Ht, Hf.
    now rewrite PromiseFacts.resolve_plain_value. }
  split.
  { intros Ht. rewrite exec_task_map_adopting.
    destruct (exec t env) as [[v|x] [w1 o1]] eqn:He; [|reflexivity].
    unfold ret. simpl.
    now rewrite PromiseFacts.resolve_plain_value by exact (Ht v _ eq_refl). }
  split.
  { intros Hf. rewrite !exec_task_map_adopting.
    destruct (exec t env) as [[v|x] env1] eqn:He; [|reflexivity].
    unfold bind. destruct (f v (fst env1)) as [[u|x] w2] eqn:Hfv; [|reflexivity].
    now rewrite PromiseFacts.resolve_plain_value
      by exact (Hf v env1 u w2 eq_refl Hfv). }
  rewrite exec_task_map_adopting, TaskFacts.exec_task_flatMap.
  destruct (exec t env) as [[v|x] env1]; [|reflexivity].
  unfold execOf, bind. destruct (f v (fst env1)) as [[u|x] w2]; reflexivity.
Qed.

Lemma task_map_functor_witness :
  exec (map (task (Dynamic.Num 1))
          (fun v => ret (Dynamic.Num 7) : Sync unit string (Dynamic.Val unit string)))
    (tt, [])
  = (Normal (Dynamic.Num 7), (tt, [])).
Proof.
  exact (proj1 (proj2
           (task_map_functor unit string
              (Dynamic.Val unit string) (Dynamic.Val unit string)
              (Dynamic.Val unit string)
              Dynamic.thenable Dynamic.thenable Dynamic.thenable
              (task (Dynamic.Num 1)) (fun v => ret (Dynamic.Num 7))
              (fun u => ret u) (tt, [])))
           (Dynamic.Num 1) (tt, []) (Dynamic.Num 7) tt
           eq_refl eq_refl eq_refl).
Defined.

(** A promise returned by the mapper is adopted: the run resolves with its
    value, and a second mapper is called on that value, not on the promise;
    mapping the composition calls it on the promise. *)
Example map_adopts_returned_promise :
  exec (W := unit) (Exn := string)
    (map (task (Dynamic.Num 1)) (fun _ => ret Dynamic.five)) (tt, [])
  = (Normal (Dynamic.Num 5), (tt, []))
  /\ exec (W := unit) (Exn := string)
       (map (map (task (Dynamic.Num 1)) (fun _ => ret Dynamic.five))
          Dynamic.tell) (tt, [])
     = (Normal (Dynamic.Num 0), (tt, []))
  /\ exec (W := unit) (Exn := string)
       (map (task (Dynamic.Num 1))
          (fun x => u <- ret Dynamic.five ;; Dynamic.tell u)) (tt, [])
     = (Normal (Dynamic.Num 1), (tt, [])).
Proof. repeat split. Qed.

(** X9. [Task.flatten] runs the outer task, then the task it resolved with:
    flattening a task that was just wrapped gives the task back, and
    [t.map(f).flatten()] runs as [t.flatMap(f)]. *)
Theorem task_flatten_joins :
  forall (W Exn T U : Type) (tt : Task W Exn (Task W Exn U))
         (t : Task W Exn T) (inner : Task W Exn U)
         (f : T -> Sync W Exn (Task W Exn U)) (env : W * list bool),
    exec (flatten tt) env
    = match exec tt env with
      | (Normal t1, env1) => exec t1 env1
      | (Thrown x, env1) => (Thrown x, env1)
      end
    /\ exec (flatten (task inner)) env = exec inner env
    /\ exec (flatten (map t f)) env = exec (flatMap t f) env.
Proof.
  intros W Exn T U tt t inner f env.
  split; [|split].
  - unfold flatten. rewrite TaskFacts.exec_task_flatMap.
    destruct (exec tt env) as [[t1|x] [w1 o1]]; reflexivity.
  - unfold flatten. rewrite TaskFacts.exec_task_flatMap, TaskFacts.exec_task.
    destruct env; reflexivity.
  - unfold flatten. rewrite !TaskFacts.exec_task_flatMap, exec_task_map.
    destruct (exec t env) as [[v|x] env1]; [|reflexivity].
    unfold execOf. destruct (f v (fst env1)) as [[t2|x] w2]; reflexivity.
Qed.

Lemma mapM_run_task_resolves :
  forall {W Exn T : Type} {tasks : list (Task W Exn T)} {vs},
    Forall2 resolves tasks vs ->
    forall w, exists ps w1,
      mapM run tasks w = (Normal ps, w1)
      /\ Forall2 Promise.resolves_to ps vs.
Proof.
  intros W Exn T tasks vs H.
  induction H as [|t v tasks vs Ht _ IH]; intros w; simpl.
  - exists [], w. split; [reflexivity | constructor].
  - destruct (Ht w) as (p & w1 & Hrun & Hp).
    destruct (IH w1) as (ps & w2 & Hmap & Hps).
    exists (p :: ps), w2. split.
    + unfold bind. rewrite Hrun, Hmap. reflexivity.
    + now constructor.
Qed.

Lemma exec_all_resolves :
  forall {W Exn T : Type} {tasks : list (Task W Exn T)} {vs},
    Forall2 resolves tasks vs ->
    forall env, fst (exec (all tasks) env) = Normal vs.
Proof.
  intros W Exn T tasks vs H env. unfold exec. simpl. unfold bind.
  destruct (mapM_run_task_resolves H (fst env)) as (ps & w1 & Hmap & Hps).
  rewrite Hmap. simpl.
  apply PromiseFacts.resolves_to_settle, PromiseFacts.resolves_to_all, Hps.
Qed.

(** X10. [all], [sequence] and [traverse] on tasks that each resolve: the run
    resolves with the values in input order, on every schedule of the event
    loop and in every world; the empty list resolves with the empty list
    and changes nothing. *)
Theorem task_all_in_input_order :
  forall (W Exn A T : Type) (tasks : list (Task W Exn T)) (vs : list T)
         (env : W * list bool),
    Forall2 resolves tasks vs ->
    fst (exec (all tasks) env) = Normal vs
    /\ fst (exec (sequence tasks) env) = Normal vs
    /\ (forall (items : list A) (mapper : A -> Sync W Exn (Task W Exn T)),
           Forall2 (fun item v =>
                      forall w, exists t w1,
                        mapper item w = (Normal t, w1) /\ resolves t v)
                   items vs ->
           fst (execOf (traverse items mapper) env) = Normal vs)
    /\ exec (all (@nil (Task W Exn T))) env = (Normal [], env)
    /\ (forall mapper : A -> Sync W Exn (Task W Exn T),
           execOf (traverse [] mapper) env = (Normal [], env)).
Proof.
  intros W Exn A T tasks vs env H.
  split; [now apply exec_all_resolves|].
  split; [now apply exec_all_resolves|].
  split.
  { intros items mapper Hitems.
    assert (Hmap : forall w, exists ts w1,
               mapM mapper items w = (Normal ts, w1)
               /\ Forall2 resolves ts vs).
    { clear H. induction Hitems as [|item v items vs Hitem _ IH];
        intros w; simpl.
      - exists [], w. split; [reflexivity | constructor].
      - destruct (Hitem w) as (t & w1 & Hm & Ht).
        destruct (IH w1) as (ts & w2 & Hms & Hts).
        exists (t :: ts), w2. unfold bind. rewrite Hm, Hms.
        split; [reflexivity | now constructor]. }
    destruct (Hmap (fst env)) as (ts & w1 & Hms & Hts).
    unfold execOf, traverse, traverseWith, mapMi, bind.
    rewrite SyncFacts.mapMi_from_unary, Hms. simpl.
    now apply exec_all_resolves. }
  split; destruct env; reflexivity.
Qed.

Lemma task_all_in_input_order_witness :
  fst (exec (W := unit) (Exn := string)
         (all [task 1; task 2; task 3]) (tt, [true; false]))
  = Normal [1; 2; 3].
Proof.
  refine (proj1 (task_all_in_input_order unit string nat nat
                   [task 1; task 2; task 3] [1; 2; 3] (tt, [true; false]) _)).
  repeat constructor; intros w; eexists; eexists;
    (split; [reflexivity | constructor]).
Defined.

(** X11. A callable that throws when it is called makes the run of [all] throw
    at once, for tasks and for TaskEithers: the call of [run] does not
    return a promise, and the callables of the later elements are never
    invoked. *)
Theorem all_stops_at_sync_throw :
  forall (W Exn E T : Type) (w w1 w2 : W) (x : Exn),
    (forall (pre post : list (Task W Exn T)) (t : Task W Exn T) ps,
        mapM run pre w = (Normal ps, w1) ->
        run t w1 = (Thrown x, w2) ->
        run (all (pre ++ t :: post)) w = (Thrown x, w2))
    /\ (forall (pre post : list (TaskEither.TaskEither W Exn E T))
               (te : TaskEither.TaskEither W Exn E T) ps,
           mapM TaskEither.run pre w = (Normal ps, w1) ->
           TaskEither.run te w1 = (Thrown x, w2) ->
           TaskEither.run (TaskEither.all (pre ++ te :: post)) w
           = (Thrown x, w2)).
Proof.
  intros W Exn E T w w1 w2 x. split.
  - intros pre post t ps Hpre Ht. simpl. unfold bind.
    now rewrite (mapM_stops_at_throw run pre post t w ps w1 x w2 Hpre Ht).
  - intros pre post te ps Hpre Hte. simpl. unfold bind.
    now rewrite (mapM_stops_at_throw TaskEither.run pre post te w ps w1 x w2
                   Hpre Hte).
Qed.

Lemma all_stops_at_sync_throw_witness :
  run (all [Sample2.noted 1 10; Sample2.broken 2; Sample2.noted 3 30]) []
  = (Thrown "broken"%string, [1; 2]).
Proof.
  exact (proj1 (all_stops_at_sync_throw (list nat) string string nat
                  [] [1] [1; 2] "broken"%string)
           [Sample2.noted 1 10] [Sample2.noted 3 30] (Sample2.broken 2)
           [Promise.resolve 10] eq_refl eq_refl).
Defined.

Lemma resolves_map :
  forall {W Exn T U : Type} (t : Task W Exn T) (f : T -> Sync W Exn U) v u,
    resolves t v ->
    (forall w, f v w = (Normal u, w)) ->
    resolves (map t f) u.
Proof.
  intros W Exn T U t f v u Ht Hf w.
  destruct (Ht w) as (p & w1 & Hrun & Hp).
  exists (Promise.then_value p f), w1. split.
  - simpl. unfold bind. now rewrite Hrun.
  - unfold Promise.then_value.
    apply resolves_to_then_pure with v (Promise.resolve u); [exact Hp| |].
    + intros w0. unfold bind. now rewrite Hf.
    + constructor.
Qed.

Lemma exec_ap_resolves :
  forall {W Exn A U : Type} (this : Task W Exn (A -> Sync W Exn U))
         (arg : Task W Exn A) fn a u,
    resolves this fn -> resolves arg a ->
    (forall w, fn a w = (Normal u, w)) ->
    forall env, fst (exec (ap this arg) env) = Normal u.
Proof.
  intros W Exn A U this arg fn a u Hthis Harg Hfn env.
  unfold exec. simpl. unfold bind.
  destruct (Hthis (fst env)) as (pf & w1 & Hrf & Hpf).
  destruct (Harg w1) as (pa & w2 & Hra & Hpa).
  rewrite Hrf, Hra. simpl. rewrite PromiseFacts.settle_then_value.
  pose proof (PromiseFacts.resolves_to_settle
                (PromiseFacts.resolves_to_all2 Hpf Hpa) (w2, snd env)) as Hboth.
  destruct (Promise.settle (Promise.all2 pf pa) (w2, snd env))
    as [[fa|x] env1]; simpl in Hboth; [|discriminate].
  injection Hboth as ->. simpl. now rewrite Hfn.
Qed.

(** The same for any result type, when the result is not a promise. *)
Lemma exec_ap_resolves_value :
  forall {W Exn A U : Type} (TH : Promise.Thenable W Exn U)
         (this : Task W Exn (A -> Sync W Exn U))
         (arg : Task W Exn A) fn a u,
    resolves this fn -> resolves arg a ->
    (forall w, fn a w = (Normal u, w)) ->
    Promise.asPromise (Thenable := TH) u = None ->
    forall env, fst (exec (ap (TH := TH) this arg) env) = Normal u.
Proof.
  intros W Exn A U TH this arg fn a u Hthis Harg Hfn Hu env.
  unfold exec. simpl. unfold bind.
  destruct (Hthis (fst env)) as (pf & w1 & Hrf & Hpf).
  destruct (Harg w1) as (pa & w2 & Hra & Hpa).
  rewrite Hrf, Hra. simpl. rewrite PromiseFacts.settle_then_value_adopting.
  pose proof (PromiseFacts.resolves_to_settle
                (PromiseFacts.resolves_to_all2 Hpf Hpa) (w2, snd env)) as Hboth.
  destruct (Promise.settle (Promise.all2 pf pa) (w2, snd env))
    as [[fa|x] env1]; simpl in Hboth; [|discriminate].
  injection Hboth as ->. simpl. rewrite Hfn.
  now rewrite PromiseFacts.resolve_plain_value.
Qed.

(** X12. [Task.ap] and [Task.zip] on tasks that each resolve, on every
    schedule, the payload types having promises among their values or not:
    [ap] resolves with the function applied to the argument, when that is
    not a promise, and [zip] with the pair in (self, other) order;
    [task(id).ap(t)] runs as [t]; and [task(f).ap(task(x))], for [x] not a
    promise, is rejected when [f(x)] throws and otherwise resolves what
    [f(x)] returned, a returned promise being awaited in its turn. *)
Theorem task_ap_zip :
  forall (W Exn T A U : Type) (THT : Promise.Thenable W Exn T)
         (THA : Promise.Thenable W Exn A) (THU : Promise.Thenable W Exn U)
         (env : W * list bool),
    (forall (this : Task W Exn (A -> Sync W Exn U)) (arg : Task W Exn A) fn a u,
        resolves this fn -> resolves arg a ->
        (forall w, fn a w = (Normal u, w)) ->
        Promise.asPromise (Thenable := THU) u = None ->
        fst (exec (ap (TH := THU) this arg) env) = Normal u)
    /\ (forall (t : Task W Exn T) (other : Task W Exn A) v a,
           resolves t v -> resolves other a ->
           fst (exec (zip t other) env) = Normal (v, a))
    /\ (forall t : Task W Exn T,
           (forall v env1, exec t env = (Normal v, env1) ->
                           Promise.asPromise (Thenable := THT) v = None) ->
           exec (ap (TH := THT) (task (fun x => ret x)) t) env = exec t env)
    /\ (forall (f : A -> Sync W Exn U) (x : A),
           Promise.asPromise (Thenable := THA) x = None ->
           exec (ap (TH := THU) (task f) (task (TH := THA) x)) env
           = match f x (fst env) with
             | (Normal u, w1) =>
                 Promise.settle (Promise.resolve (TH := THU) u) (w1, snd env)
             | (Thrown e, w1) => (Thrown e, (w1, snd env))
             end).
Proof.
  intros W Exn T A U THT THA THU env.
  split; [intros this arg fn a u Hthis Harg Hfn Hu;
          now apply exec_ap_resolves_value with fn a|].
  split.
  { intros t other v a Ht Hother. unfold zip.
    apply exec_ap_resolves with (fun a0 => ret (v, a0)) a;
      [|exact Hother|reflexivity].
    now apply resolves_map with v. }
  split.
  { intros t Ht. unfold exec in *. simpl. unfold bind, ret. simpl.
    destruct (run t (fst env)) as [[p|x] w1]; simpl; [|reflexivity].
    rewrite PromiseFacts.settle_then_value_adopting, settle_pmap. simpl.
    destruct (Promise.settle p (w1, snd env)) as [[v|x] [w2 o2]] eqn:Hp;
      [|reflexivity].
    simpl. now rewrite PromiseFacts.resolve_plain_value by exact (Ht v _ eq_refl). }
  intros f x Hx. unfold exec. simpl. unfold bind, ret. simpl.
  rewrite PromiseFacts.resolve_plain_value by exact Hx. simpl.
  unfold bind, ret.
  destruct (f x (fst env)) as [[u|e] w1]; reflexivity.
Qed.

Lemma task_ap_zip_witness :
  fst (exec (W := unit) (Exn := string)
         (zip (task "Alice"%string) (task 30)) (tt, [false]))
  = Normal ("Alice"%string, 30).
Proof.
  refine (proj1 (proj2 (task_ap_zip unit string string nat nat
                          (Promise.plain string) (Promise.plain nat)
                          (Promise.plain nat) (tt, [false])))
            (task "Alice"%string) (task 30) "Alice"%string 30 _ _);
    intros w; eexists; eexists; (split; [reflexivity | constructor]).
Defined.

(** With a promise for argument the function is applied to the value of the
    promise, and a promise the function returns is awaited. *)
Example ap_on_promise_payloads :
  exec (W := unit) (Exn := string)
    (ap (task Dynamic.tell) (task Dynamic.five)) (tt, [])
  = (Normal (Dynamic.Num 0), (tt, []))
  /\ exec (W := unit) (Exn := string)
       (ap (task (fun _ : Dynamic.Val unit string => ret Dynamic.five))
          (task (Dynamic.Num 1))) (tt, [])
     = (Normal (Dynamic.Num 5), (tt, [])).
Proof. split; reflexivity. Qed.

End TaskMore.

(** ** TaskEither: the two branches *)

Module TaskEitherMore.

Import TaskEither.

Lemma exec_te_map :
  forall {W Exn E T U : Type} (te : TaskEither W Exn E T)
         (f : T -> Sync W Exn U) env,
    exec (map te f) env
    = match exec te env with
      | (Normal (Either.Left e), env1) => (Normal (Either.Left e), env1)
      | (Normal (Either.Right v), env1) =>
          match f v (fst env1) with
          | (Normal u, w2) => (Normal (Either.Right u), (w2, snd env1))
          | (Thrown x, w2) => (Thrown x, (w2, snd env1))
          end
      | (Thrown x, env1) => (Thrown x, env1)
      end.
Proof.
  intros W Exn E T U te f env. unfold map.
  rewrite TaskEitherFacts.exec_taskEither_flatMap.
  destruct (exec te env) as [[[e|v]|x] env1]; try reflexivity.
  unfold execOf, exec. simpl. unfold bind.
  destruct (f v (fst env1)) as [[u|x] w2]; reflexivity.
Qed.

Lemma exec_te_mapLeft :
  forall {W Exn E F T : Type} (te : TaskEither W Exn E T)
         (g : E -> Sync W Exn F) env,
    exec (mapLeft te g) env
    = match exec te env with
      | (Normal (Either.Left e), env1) =>
          match g e (fst env1) with
          | (Normal e', w2) => (Normal (Either.Left e'), (w2, snd env1))
          | (Thrown x, w2) => (Thrown x, (w2, snd env1))
          end
      | (Normal (Either.Right v), env1) => (Normal (Either.Right v), env1)
      | (Thrown x, env1) => (Thrown x, env1)
      end.
Proof.
  intros W Exn E F T te g env. unfold exec. simpl. unfold bind.
  destruct (run te (fst env)) as [[p|x] w1]; simpl; [|reflexivity].
  rewrite PromiseFacts.settle_then_value.
  destruct (Promise.settle p (w1, snd env)) as [[[e|v]|x] [w2 o2]];
    simpl; try reflexivity.
  unfold bind. destruct (g e w2) as [[e'|x] w3]; reflexivity.
Qed.

Lemma exec_te_orElse :
  forall {W Exn E T : Type} (te : TaskEither W Exn E T)
         (fallback : E -> Sync W Exn (TaskEither W Exn E T)) env,
    exec (orElse te fallback) env
    = match exec te env with
      | (Normal (Either.Left e), env1) => execOf (fallback e) env1
      | (Normal (Either.Right v), env1) => (Normal (Either.Right v), env1)
      | (Thrown x, env1) => (Thrown x, env1)
      end.
Proof.
  intros W Exn E T te fallback env. unfold exec at 1 2. simpl. unfold bind.
  destruct (run te (fst env)) as [[p|x] w1]; simpl; [|reflexivity].
  rewrite PromiseFacts.settle_then.
  destruct (Promise.settle p (w1, snd env)) as [[[e|v]|x] env1];
    simpl; [| destruct env1; reflexivity | reflexivity].
  unfold execOf, exec, bind.
  destruct (fallback e (fst env1)) as [[te2|x] w2]; reflexivity.
Qed.

Lemma exec_te_tap :
  forall {W Exn E T R : Type} (te : TaskEither W Exn E T)
         (s : T -> Sync W Exn R) env,
    exec (tap te s) env
    = match exec te env with
      | (Normal (Either.Left e), env1) => (Normal (Either.Left e), env1)
      | (Normal (Either.Right v), env1) =>
          match s v (fst env1) with
          | (Normal _, w2) => (Normal (Either.Right v), (w2, snd env1))
          | (Thrown x, w2) => (Thrown x, (w2, snd env1))
          end
      | (Thrown x, env1) => (Thrown x, env1)
      end.
Proof.
  intros W Exn E T R te s env. unfold exec. simpl. unfold bind.
  destruct (run te (fst env)) as [[p|x] w1]; simpl; [|reflexivity].
  rewrite PromiseFacts.settle_then_value.
  destruct (Promise.settle p (w1, snd env)) as [[[e|v]|x] [w2 o2]];
    simpl; try reflexivity.
  unfold Either.tap, bind. simpl.
  destruct (s v w2) as [[r|x] w3]; reflexivity.
Qed.

Lemma exec_te_tapLeft :
  forall {W Exn E T R : Type} (te : TaskEither W Exn E T)
         (s : E -> Sync W Exn R) env,
    exec (tapLeft te s) env
    = match exec te env with
      | (Normal (Either.Left e), env1) =>
          match s e (fst env1) with
          | (Normal _, w2) => (Normal (Either.Left e), (w2, snd env1))
          | (Thrown x, w2) => (Thrown x, (w2, snd env1))
          end
      | (Normal (Either.Right v), env1) => (Normal (Either.Right v), env1)
      | (Thrown x, env1) => (Thrown x, env1)
      end.
Proof.
  intros W Exn E T R te s env. unfold exec. simpl. unfold bind.
  destruct (run te (fst env)) as [[p|x] w1]; simpl; [|reflexivity].
  rewrite PromiseFacts.settle_then_value.
  destruct (Promise.settle p (w1, snd env)) as [[[e|v]|x] [w2 o2]];
    simpl; try reflexivity.
  unfold bind. destruct (s e w2) as [[r|x] w3]; reflexivity.
Qed.

Lemma exec_te_match :
  forall {W Exn E T U : Type} (TH : Promise.Thenable W Exn U)
         (te : TaskEither W Exn E T)
         (onLeft : E -> Sync W Exn U) (onRight : T -> Sync W Exn U) env,
    Task.exec (match_ (TH := TH) te onLeft onRight) env
    = match exec te env with
      | (Normal either, env1) =>
          match Either.match_ either onLeft onRight (fst env1) with
          | (Normal u, w2) =>
              Promise.settle (Promise.resolve (TH := TH) u) (w2, snd env1)
          | (Thrown x, w2) => (Thrown x, (w2, snd env1))
          end
      | (Thrown x, env1) => (Thrown x, env1)
      end.
Proof.
  intros W Exn E T U TH te onLeft onRight env.
  unfold Task.exec, exec. simpl. unfold bind.
  destruct (run te (fst env)) as [[p|x] w1]; simpl; [|reflexivity].
  apply PromiseFacts.settle_then_value_adopting.
Qed.

(** X13. [TaskEither.map]: a left passes through and the mapper is not called; a
    right is mapped, a throw of the mapper rejecting the run.  Mapping the
    identity changes nothing, mapping twice is mapping the composition, and
    [te.map(f)] runs as [te.flatMap(v => taskEither(f(v)))]. *)
Theorem taskEither_map_functor :
  forall (W Exn E T U V : Type) (te : TaskEither W Exn E T)
         (f : T -> Sync W Exn U) (g : U -> Sync W Exn V)
         (env : W * list bool),
    exec (map te f) env
    = match exec te env with
      | (Normal (Either.Left e), env1) => (Normal (Either.Left e), env1)
      | (Normal (Either.Right v), env1) =>
          match f v (fst env1) with
          | (Normal u, w2) => (Normal (Either.Right u), (w2, snd env1))
          | (Thrown x, w2) => (Thrown x, (w2, snd env1))
          end
      | (Thrown x, env1) => (Thrown x, env1)
      end
    /\ exec (map te (fun x => ret x)) env = exec te env
    /\ exec (map (map te f) g) env
       = exec (map te (fun x => u <- f x ;; g u)) env
    /\ exec (map te f) env
       = exec (flatMap te (fun v => u <- f v ;; ret (taskEither u))) env.
Proof.
  intros W Exn E T U V te f g env.
  split; [apply exec_te_map|].
  split.
  { rewrite exec_te_map.
    destruct (exec te env) as [[[e|v]|x] [w1 o1]]; reflexivity. }
  split.
  { rewrite !exec_te_map.
    destruct (exec te env) as [[[e|v]|x] env1]; try reflexivity.
    unfold bind. destruct (f v (fst env1)) as [[u|x] w2]; reflexivity. }
  rewrite exec_te_map, TaskEitherFacts.exec_taskEither_flatMap.
  destruct (exec te env) as [[[e|v]|x] env1]; try reflexivity.
  unfold execOf, bind. destruct (f v (fst env1)) as [[u|x] w2]; reflexivity.
Qed.

(** X14. [TaskEither.mapLeft] is the mirror of [map]: a right passes through and
    the mapper is not called; a left is mapped.  It keeps identities and
    compositions, and it commutes with [map], also for mappers with
    effects, since only one of the two mappers ever runs. *)
Theorem taskEither_mapLeft_mirrors_map :
  forall (W Exn E F G T U : Type) (te : TaskEither W Exn E T)
         (f : T -> Sync W Exn U) (g : E -> Sync W Exn F)
         (h : F -> Sync W Exn G) (env : W * list bool),
    exec (mapLeft te g) env
    = match exec te env with
      | (Normal (Either.Left e), env1) =>
          match g e (fst env1) with
          | (Normal e', w2) => (Normal (Either.Left e'), (w2, snd env1))
          | (Thrown x, w2) => (Thrown x, (w2, snd env1))
          end
      | (Normal (Either.Right v), env1) => (Normal (Either.Right v), env1)
      | (Thrown x, env1) => (Thrown x, env1)
      end
    /\ exec (mapLeft te (fun e => ret e)) env = exec te env
    /\ exec (mapLeft (mapLeft te g) h) env
       = exec (mapLeft te (fun e => e' <- g e ;; h e')) env
    /\ exec (mapLeft (map te f) g) env = exec (map (mapLeft te g) f) env.
Proof.
  intros W Exn E F G T U te f g h env.
  split; [apply exec_te_mapLeft|].
  split.
  { rewrite exec_te_mapLeft.
    destruct (exec te env) as [[[e|v]|x] [w1 o1]]; reflexivity. }
  split.
  { rewrite !exec_te_mapLeft.
    destruct (exec te env) as [[[e|v]|x] env1]; try reflexivity.
    unfold bind. destruct (g e (fst env1)) as [[e'|x] w2]; reflexivity. }
  rewrite exec_te_mapLeft, !exec_te_map, exec_te_mapLeft.
  destruct (exec te env) as [[[e|v]|x] env1]; try reflexivity.
  - destruct (g e (fst env1)) as [[e'|x] w2]; reflexivity.
  - destruct (f v (fst env1)) as [[u|x] w2]; reflexivity.
Qed.

(** X15. [TaskEither.orElse] is [flatMap] on the error side: a right passes
    through and the fallback is never called, nor the callable of a
    TaskEither it would return; a left continues as the run of the
    fallback's TaskEither.  So [taskLeft(e).orElse(f)] runs as [f(e)],
    [m.orElse(taskLeft)] runs as [m], and nested fallbacks associate. *)
Theorem taskEither_orElse_recovers :
  forall (W Exn E T : Type) (te : TaskEither W Exn E T)
         (f g : E -> Sync W Exn (TaskEither W Exn E T))
         (env : W * list bool),
    exec (orElse te f) env
    = match exec te env with
      | (Normal (Either.Left e), env1) => execOf (f e) env1
      | (Normal (Either.Right v), env1) => (Normal (Either.Right v), env1)
      | (Thrown x, env1) => (Thrown x, env1)
      end
    /\ (forall e, exec (orElse (taskLeft e) f) env = execOf (f e) env)
    /\ exec (orElse te (fun e => ret (taskLeft e))) env = exec te env
    /\ exec (orElse (orElse te f) g) env
       = exec (orElse te (fun e => t <- f e ;; ret (orElse t g))) env
    /\ (forall v, exec (orElse (taskEither v) f) env
                  = (Normal (Either.Right v), env)).
Proof.
  intros W Exn E T te f g env.
  split; [apply exec_te_orElse|].
  split.
  { intros e. rewrite exec_te_orElse. destruct env; reflexivity. }
  split.
  { rewrite exec_te_orElse.
    destruct (exec te env) as [[[e|v]|x] [w1 o1]]; reflexivity. }
  split.
  { rewrite !exec_te_orElse.
    destruct (exec te env) as [[[e|v]|x] env1]; try reflexivity.
    unfold execOf, bind.
    destruct (f e (fst env1)) as [[t|x] w1]; [|reflexivity].
    simpl. now rewrite exec_te_orElse. }
  intros v. rewrite exec_te_orElse. destruct env; reflexivity.
Qed.

(** X16. [tap] and [tapLeft] on a TaskEither: [tap] calls its side effect on a
    right only and [tapLeft] on a left only; the outcome is passed on
    unchanged unless the side effect throws, which rejects the run; so of
    the two side effects of [te.tap(s).tapLeft(sl)] exactly one runs, and
    the two taps can be exchanged. *)
Theorem taskEither_taps :
  forall (W Exn E T R R' : Type) (te : TaskEither W Exn E T)
         (s : T -> Sync W Exn R) (sl : E -> Sync W Exn R')
         (env : W * list bool),
    exec (tap te s) env
    = match exec te env with
      | (Normal (Either.Left e), env1) => (Normal (Either.Left e), env1)
      | (Normal (Either.Right v), env1) =>
          match s v (fst env1) with
          | (Normal _, w2) => (Normal (Either.Right v), (w2, snd env1))
          | (Thrown x, w2) => (Thrown x, (w2, snd env1))
          end
      | (Thrown x, env1) => (Thrown x, env1)
      end
    /\ exec (tapLeft te sl) env
       = match exec te env with
         | (Normal (Either.Left e), env1) =>
             match sl e (fst env1) with
             | (Normal _, w2) => (Normal (Either.Left e), (w2, snd env1))
             | (Thrown x, w2) => (Thrown x, (w2, snd env1))
             end
         | (Normal (Either.Right v), env1) => (Normal (Either.Right v), env1)
         | (Thrown x, env1) => (Thrown x, env1)
         end
    /\ exec (tapLeft (tap te s) sl) env = exec (tap (tapLeft te sl) s) env.
Proof.
  intros W Exn E T R R' te s sl env.
  split; [apply exec_te_tap|].
  split; [apply exec_te_tapLeft|].
  rewrite exec_te_tapLeft, !exec_te_tap, exec_te_tapLeft.
  destruct (exec te env) as [[[e|v]|x] env1]; try reflexivity.
  - destruct (sl e (fst env1)) as [[r|x] w2]; reflexivity.
  - destruct (s v (fst env1)) as [[r|x] w2]; reflexivity.
Qed.

(** X17. [match] and [getOrElse] turn a TaskEither into a Task, the result
    type having promises among its values or not: the awaited run
    dispatches on the outcome, calls one handler only and resolves what the
    handler returned, so a value that is not a promise is what the run
    resolves with and a promise is awaited in its turn; a throw of the
    handler rejects the run.  [getOrElse] is [match] with the identity on
    the right, and a [map] or [mapLeft] before [match] can be fused into the
    handler of its branch. *)
Theorem taskEither_match_dispatches :
  forall (W Exn E F T U V : Type) (THT : Promise.Thenable W Exn T)
         (THV : Promise.Thenable W Exn V) (te : TaskEither W Exn E T)
         (onLeft : E -> Sync W Exn V) (onRight : T -> Sync W Exn V)
         (fallback : E -> Sync W Exn T)
         (f : T -> Sync W Exn U) (onRight' : U -> Sync W Exn V)
         (g : E -> Sync W Exn F) (onLeft' : F -> Sync W Exn V)
         (env : W * list bool),
    Task.exec (match_ (TH := THV) te onLeft onRight) env
    = match exec te env with
      | (Normal (Either.Left e), env1) =>
          match onLeft e (fst env1) with
          | (Normal u, w2) =>
              Promise.settle (Promise.resolve (TH := THV) u) (w2, snd env1)
          | (Thrown x, w2) => (Thrown x, (w2, snd env1))
          end
      | (Normal (Either.Right v), env1) =>
          match onRight v (fst env1) with
          | (Normal u, w2) =>
              Promise.settle (Promise.resolve (TH := THV) u) (w2, snd env1)
          | (Thrown x, w2) => (Thrown x, (w2, snd env1))
          end
      | (Thrown x, env1) => (Thrown x, env1)
      end
    /\ Task.exec (getOrElse (TH := THT) te fallback) env
       = Task.exec (match_ (TH := THT) te fallback (fun v => ret v)) env
    /\ Task.exec (match_ (TH := THV) (map te f) onLeft onRight') env
       = Task.exec
           (match_ (TH := THV) te onLeft (fun v => u <- f v ;; onRight' u)) env
    /\ Task.exec (match_ (TH := THV) (mapLeft te g) onLeft' onRight) env
       = Task.exec
           (match_ (TH := THV) te (fun e => e' <- g e ;; onLeft' e') onRight)
           env.
Proof.
  intros W Exn E F T U V THT THV te onLeft onRight fallback f onRight' g
         onLeft' env.
  split.
  { rewrite exec_te_match.
    destruct (exec te env) as [[[e|v]|x] env1]; reflexivity. }
  split; [reflexivity|].
  split.
  { rewrite !exec_te_match, exec_te_map.
    destruct (exec te env) as [[[e|v]|x] env1]; simpl; try reflexivity.
    unfold bind. destruct (f v (fst env1)) as [[u|x] w2]; reflexivity. }
  rewrite !exec_te_match, exec_te_mapLeft.
  destruct (exec te env) as [[[e|v]|x] env1]; simpl; try reflexivity.
  unfold bind. destruct (g e (fst env1)) as [[e'|x] w2]; reflexivity.
Qed.

(** A handler that returns a rejected promise rejects the run, though no
    handler throws; one that returns a number resolves it. *)
Example match_adopts_returned_promise :
  Task.exec (W := unit) (Exn := string)
    (match_ (taskEither (E := nat) 3)
       (fun _ => ret (Dynamic.Num 0))
       (fun _ => ret (Dynamic.Prom (Promise.Rejected "no"%string))))
    (tt, [])
  = (Thrown "no"%string, (tt, []))
  /\ Task.exec (W := unit) (Exn := string)
       (match_ (taskEither (E := nat) 3)
          (fun _ => ret (Dynamic.Num 0))
          (fun v => ret (Dynamic.Num v)))
       (tt, [])
     = (Normal (Dynamic.Num 3), (tt, [])).
Proof. split; reflexivity. Qed.

(** X18. [TaskEither.flatten] runs the outer TaskEither and, on a right, the
    TaskEither it carries; a left of the outer one is the result and
    nothing more is run.  Flattening a TaskEither that was just wrapped
    gives it back, and [te.map(f).flatten()] runs as [te.flatMap(f)]. *)
Theorem taskEither_flatten_joins :
  forall (W Exn E T U : Type)
         (outer : TaskEither W Exn E (TaskEither W Exn E U))
         (te : TaskEither W Exn E T) (inner : TaskEither W Exn E U)
         (f : T -> Sync W Exn (TaskEither W Exn E U)) (env : W * list bool),
    exec (flatten outer) env
    = match exec outer env with
      | (Normal (Either.Left e), env1) => (Normal (Either.Left e), env1)
      | (Normal (Either.Right te1), env1) => exec te1 env1
      | (Thrown x, env1) => (Thrown x, env1)
      end
    /\ exec (flatten (taskEither inner)) env = exec inner env
    /\ exec (flatten (map te f)) env = exec (flatMap te f) env.
Proof.
  intros W Exn E T U outer te inner f env.
  split; [|split].
  - unfold flatten. rewrite TaskEitherFacts.exec_taskEither_flatMap.
    destruct (exec outer env) as [[[e|te1]|x] [w1 o1]]; reflexivity.
  - unfold flatten.
    rewrite TaskEitherFacts.exec_taskEither_flatMap,
      TaskEitherFacts.exec_taskEither.
    destruct env; reflexivity.
  - unfold flatten. rewrite !TaskEitherFacts.exec_taskEither_flatMap, exec_te_map.
    destruct (exec te env) as [[[e|v]|x] env1]; try reflexivity.
    unfold execOf. destruct (f v (fst env1)) as [[te2|x] w2]; reflexivity.
Qed.

End TaskEitherMore.

(** ** Combining two computations: side by side, or one after the other *)

Module Combining.

Import Trace.

Lemma resolves_taskEither_map :
  forall {W Exn E T U : Type} (te : TaskEither.TaskEither W Exn E T)
         (f : T -> U) either,
    TaskEither.resolves te either ->
    TaskEither.resolves (TaskEither.map te (fun v => ret (f v)))
      (Outcome.mapped f either).
Proof.
  intros W Exn E T U te f either Hte w.
  destruct (Hte w) as (p & w1 & Hrun & Hp).
  eexists. exists w1. split.
  - simpl. unfold bind. rewrite Hrun. reflexivity.
  - apply TaskMore.resolves_to_then_pure
      with either (Promise.resolve (Outcome.mapped f either)); [exact Hp| |].
    + intros w0. destruct either; reflexivity.
    + constructor.
Qed.

Lemma exec_taskEither_ap_resolves :
  forall {W Exn E A U : Type}
         (this : TaskEither.TaskEither W Exn E (A -> Sync W Exn U))
         (arg : TaskEither.TaskEither W Exn E A) ef ea r,
    TaskEither.resolves this ef -> TaskEither.resolves arg ea ->
    (forall w, Either.ap ef ea w = (Normal r, w)) ->
    forall env, fst (TaskEither.exec (TaskEither.ap this arg) env) = Normal r.
Proof.
  intros W Exn E A U this arg ef ea r Hthis Harg Hap env.
  unfold TaskEither.exec. simpl. unfold bind.
  destruct (Hthis (fst env)) as (pf & w1 & Hrf & Hpf).
  destruct (Harg w1) as (pa & w2 & Hra & Hpa).
  rewrite Hrf, Hra. simpl. rewrite PromiseFacts.settle_then_value.
  pose proof (PromiseFacts.resolves_to_settle
                (PromiseFacts.resolves_to_all2 Hpf Hpa) (w2, snd env)) as Hboth.
  destruct (Promise.settle (Promise.all2 pf pa) (w2, snd env))
    as [[fa|x] env1]; simpl in Hboth; [|discriminate].
  injection Hboth as ->. simpl. now rewrite Hap.
Qed.

(** X19. [TaskEither.ap] and [TaskEither.zip] on operands that each resolve, on
    every schedule: [zip] resolves to the pair of the two values in (self,
    other) order when both are rights and otherwise to the first left in
    operand order; [ap] applies the function only when both are rights, and
    a throw of the function rejects the run. *)
Theorem taskEither_ap_zip :
  forall (W Exn E T A U : Type) (env : W * list bool),
    (forall (te : TaskEither.TaskEither W Exn E T)
            (other : TaskEither.TaskEither W Exn E A) e1 e2,
        TaskEither.resolves te e1 -> TaskEither.resolves other e2 ->
        fst (TaskEither.exec (TaskEither.zip te other) env)
        = Normal (Expected.zipped e1 e2))
    /\ (forall (tf : TaskEither.TaskEither W Exn E (A -> U))
               (arg : TaskEither.TaskEither W Exn E A) ef ea,
           TaskEither.resolves tf ef -> TaskEither.resolves arg ea ->
           fst (TaskEither.exec
                  (TaskEither.ap
                     (TaskEither.map tf (fun g => ret (fun a => ret (g a))))
                     arg) env)
           = Normal (Outcome.applied ef ea))
    /\ (forall (f : A -> Sync W Exn U) (x : A),
           TaskEither.exec
             (TaskEither.ap (TaskEither.taskEither f) (TaskEither.taskEither x))
             env
           = match f x (fst env) with
             | (Normal u, w1) =>
                 (Normal (Either.right (E := E) u), (w1, snd env))
             | (Thrown x0, w1) => (Thrown x0, (w1, snd env))
             end)
    /\ (forall (f : A -> Sync W Exn U) (e : E),
           TaskEither.exec
             (TaskEither.ap (TaskEither.taskEither f) (TaskEither.taskLeft e))
             env
           = (Normal (Either.left e), env)).
Proof.
  intros W Exn E T A U env.
  split.
  { intros te other e1 e2 Hte Hother. unfold TaskEither.zip.
    eapply exec_taskEither_ap_resolves;
      [apply resolves_taskEither_map with (f := fun value a0 => ret (value, a0)),
         Hte
      |exact Hother|].
    intros w. destruct e1 as [x|v]; destruct e2 as [y|a]; reflexivity. }
  split.
  { intros tf arg ef ea Htf Harg.
    eapply exec_taskEither_ap_resolves;
      [apply resolves_taskEither_map with (f := fun g a => ret (g a)), Htf
      |exact Harg|].
    intros w. destruct ef as [x|g]; destruct ea as [y|a]; reflexivity. }
  split.
  { intros f x. unfold TaskEither.exec. simpl. unfold bind. simpl.
    unfold bind. destruct (f x (fst env)) as [[u|x0] w1]; reflexivity. }
  intros f e. destruct env; reflexivity.
Qed.

Lemma taskEither_ap_zip_witness :
  fst (TaskEither.exec
         (TaskEither.zip (Sample.after 2 (Either.right "Alice"%string))
            (Sample.after 0 (Either.left (T := nat) "No age"%string)))
         (tt, [false; true]))
  = Normal (Either.left "No age"%string).
Proof.
  refine (proj1 (taskEither_ap_zip unit string string string nat nat
                   (tt, [false; true]))
            (Sample.after 2 (Either.right "Alice"%string))
            (Sample.after 0 (Either.left "No age"%string))
            (Either.right "Alice"%string) (Either.left "No age"%string) _ _);
    intros w; eexists; eexists; (split; [reflexivity|]);
    simpl; repeat constructor.
Defined.

Section Sequencing.
Context {Exn : Type}.

Lemma yields_settle_single :
  forall {T : Type} {p : Promise.t Log Exn T} {v ev} log schedule,
    yields p v [ev] ->
    exists schedule',
      Promise.settle p (log, schedule) = (Normal v, (log ++ [ev], schedule')).
Proof.
  intros T p v ev log schedule Hp.
  destruct (ConcurrentStart.yields_settle Hp log schedule)
    as (l & schedule' & Hs & Hperm).
  apply Permutation_length_1_inv in Hperm. subst l.
  now exists schedule'.
Qed.

Lemma exec_traced :
  forall {T : Type} (t : Task.Task Log Exn T) i v log schedule,
    traced t (i, v) ->
    exists schedule',
      Task.exec t (log, schedule)
      = (Normal v, (log ++ [Invoked i; Resolved i], schedule')).
Proof.
  intros T t i v log schedule Ht.
  destruct (Ht log) as (p & Hrun & Hp). simpl in *.
  destruct (yields_settle_single (log ++ [Invoked i]) schedule Hp)
    as (schedule' & Hs).
  exists schedule'. unfold Task.exec. simpl. rewrite Hrun, Hs.
  now rewrite <- app_assoc.
Qed.

Lemma exec_tracedE :
  forall {E T : Type} (te : TaskEither.TaskEither Log Exn E T) i either
         log schedule,
    tracedE te (i, either) ->
    exists schedule',
      TaskEither.exec te (log, schedule)
      = (Normal either, (log ++ [Invoked i; Resolved i], schedule')).
Proof.
  intros E T te i either log schedule Hte.
  destruct (Hte log) as (p & Hrun & Hp). simpl in *.
  destruct (yields_settle_single (log ++ [Invoked i]) schedule Hp)
    as (schedule' & Hs).
  exists schedule'. unfold TaskEither.exec. simpl. rewrite Hrun, Hs.
  now rewrite <- app_assoc.
Qed.

End Sequencing.

(** X20. [flatMap] and [orElse] run one computation after the other, where [ap],
    [zip] and [all] start them together: the callable of the second task is
    invoked only after the first has resolved, on every schedule; and when
    the first outcome takes the other branch (a left under [flatMap], a
    right under [orElse]) the second callable is never invoked. *)
Theorem flatMap_runs_in_sequence :
  forall (Exn E T U : Type) (log : Log) (schedule : list bool),
    (forall (t : Task.Task Log Exn T)
            (f : T -> Sync Log Exn (Task.Task Log Exn U)) i j v u,
        traced t (i, v) ->
        (forall log0, exists t2, f v log0 = (Normal t2, log0) /\ traced t2 (j, u)) ->
        exists schedule',
          Task.exec (Task.flatMap t f) (log, schedule)
          = (Normal u,
             (log ++ [Invoked i; Resolved i; Invoked j; Resolved j], schedule')))
    /\ (forall (te : TaskEither.TaskEither Log Exn E T)
               (f : T -> Sync Log Exn (TaskEither.TaskEither Log Exn E U))
               i j v e2,
           tracedE te (i, Either.Right v) ->
           (forall log0, exists te2,
               f v log0 = (Normal te2, log0) /\ tracedE te2 (j, e2)) ->
           exists schedule',
             TaskEither.exec (TaskEither.flatMap te f) (log, schedule)
             = (Normal e2,
                (log ++ [Invoked i; Resolved i; Invoked j; Resolved j],
                 schedule')))
    /\ (forall (te : TaskEither.TaskEither Log Exn E T)
               (f : T -> Sync Log Exn (TaskEither.TaskEither Log Exn E U)) i e,
           tracedE te (i, Either.Left e) ->
           exists schedule',
             TaskEither.exec (TaskEither.flatMap te f) (log, schedule)
             = (Normal (Either.Left e),
                (log ++ [Invoked i; Resolved i], schedule')))
    /\ (forall (te : TaskEither.TaskEither Log Exn E T)
               (f : E -> Sync Log Exn (TaskEither.TaskEither Log Exn E T))
               i j e e2,
           tracedE te (i, Either.Left e) ->
           (forall log0, exists te2,
               f e log0 = (Normal te2, log0) /\ tracedE te2 (j, e2)) ->
           exists schedule',
             TaskEither.exec (TaskEither.orElse te f) (log, schedule)
             = (Normal e2,
                (log ++ [Invoked i; Resolved i; Invoked j; Resolved j],
                 schedule')))
    /\ (forall (te : TaskEither.TaskEither Log Exn E T)
               (f : E -> Sync Log Exn (TaskEither.TaskEither Log Exn E T)) i v,
           tracedE te (i, Either.Right v) ->
           exists schedule',
             TaskEither.exec (TaskEither.orElse te f) (log, schedule)
             = (Normal (Either.Right v),
                (log ++ [Invoked i; Resolved i], schedule'))).
Proof.
  intros Exn E T U log schedule.
  split.
  { intros t f i j v u Ht Hf.
    destruct (exec_traced t i v log schedule Ht) as (s1 & H1).
    destruct (Hf (log ++ [Invoked i; Resolved i])) as (t2 & Hfv & Ht2).
    destruct (exec_traced t2 j u (log ++ [Invoked i; Resolved i]) s1 Ht2)
      as (s2 & H2).
    exists s2. rewrite TaskFacts.exec_task_flatMap, H1.
    unfold Task.execOf. simpl. rewrite Hfv. simpl.
    rewrite H2, <- app_assoc. reflexivity. }
  split.
  { intros te f i j v e2 Hte Hf.
    destruct (exec_tracedE te i _ log schedule Hte) as (s1 & H1).
    destruct (Hf (log ++ [Invoked i; Resolved i])) as (te2 & Hfv & Hte2).
    destruct (exec_tracedE te2 j e2 (log ++ [Invoked i; Resolved i]) s1 Hte2)
      as (s2 & H2).
    exists s2. rewrite TaskEitherFacts.exec_taskEither_flatMap, H1.
    unfold TaskEither.execOf. simpl. rewrite Hfv. simpl.
    rewrite H2, <- app_assoc. reflexivity. }
  split.
  { intros te f i e Hte.
    destruct (exec_tracedE te i _ log schedule Hte) as (s1 & H1).
    exists s1. rewrite TaskEitherFacts.exec_taskEither_flatMap, H1.
    reflexivity. }
  split.
  { intros te f i j e e2 Hte Hf.
    destruct (exec_tracedE te i _ log schedule Hte) as (s1 & H1).
    destruct (Hf (log ++ [Invoked i; Resolved i])) as (te2 & Hfe & Hte2).
    destruct (exec_tracedE te2 j e2 (log ++ [Invoked i; Resolved i]) s1 Hte2)
      as (s2 & H2).
    exists s2. rewrite TaskEitherMore.exec_te_orElse, H1.
    unfold TaskEither.execOf. simpl. rewrite Hfe. simpl.
    rewrite H2, <- app_assoc. reflexivity. }
  intros te f i v Hte.
  destruct (exec_tracedE te i _ log schedule Hte) as (s1 & H1).
  exists s1. rewrite TaskEitherMore.exec_te_orElse, H1. reflexivity.
Qed.

Lemma flatMap_runs_in_sequence_witness :
  exists schedule',
    Task.exec (Exn := string)
      (Task.flatMap (probe 2 (0, 10)) (fun v => ret (probe 1 (1, v + 1))))
      ([], [true])
    = (Normal 11,
       ([Invoked 0; Resolved 0; Invoked 1; Resolved 1], schedule')).
Proof.
  refine (proj1 (flatMap_runs_in_sequence string nat nat nat [] [true])
            (probe 2 (0, 10)) (fun v => ret (probe 1 (1, v + 1)))
            0 1 10 11 _ _).
  - apply ConcurrentStart.probe_traced.
  - intros log0. eexists. split; [reflexivity|].
    apply (ConcurrentStart.probe_traced nat 1 (1, 11)).
Defined.

End Combining.
